(** * Media scanner: the Radarr/Sonarr clients and the MediaLibrary aggregator

    A shallow embedding of [src/program_director/scanner.py].

    Conventions of the model:
    - a Python [int] is a [Z]; a rating (a finite JSON number read as a
      Python [float]) is the exact rational [Q] it denotes, which is all the
      code needs: it only tests ratings for truthiness, compares and prints
      them;
    - a Python [str] is a [string] of ASCII text, and [str.lower] maps the
      letters A-Z to a-z;
    - a raw JSON record is a record of optional fields, one per key the
      code reads with [dict.get(key, default)];
    - a method of [MediaLibrary] is a function from the instance (its two
      clients and its two caches) to the instance afterwards and either a
      value or the exception raised. *)

From Stdlib Require Import Ascii String QArith Qabs.
From stdpp Require Import gmap strings list sorting pretty.

#[local] Set Warnings "-clear-no-such-hyp".

Open Scope string_scope.
Open Scope list_scope.
Open Scope Z_scope.

(** ** Python built-ins the scanner uses *)

(** [str.lower] on ASCII text. *)
Definition lower_ascii (c : ascii) : ascii :=
  let n := Ascii.N_of_ascii c in
  if ((65 <=? n) && (n <=? 90))%N then Ascii.ascii_of_N (n + 32) else c.

Fixpoint lower (s : string) : string :=
  match s with
  | EmptyString => EmptyString
  | String c s' => String (lower_ascii c) (lower s')
  end.

(** [s.startswith(p)] and the substring test [p in s] on strings. *)
Fixpoint startswith (p s : string) : bool :=
  match p, s with
  | EmptyString, _ => true
  | String _ _, EmptyString => false
  | String a p', String b s' => bool_decide (a = b) && startswith p' s'
  end.

Fixpoint str_in (p s : string) : bool :=
  startswith p s ||
  match s with
  | EmptyString => false
  | String _ s' => str_in p s'
  end.

(** [x in l] on a list of strings. *)
Definition list_in (x : string) (l : list string) : bool :=
  bool_decide (x ∈ l).

(** [sep.join(l)]. *)
Fixpoint join (sep : string) (l : list string) : string :=
  match l with
  | [] => ""
  | [x] => x
  | x :: rest => x +:+ sep +:+ join sep rest
  end.

(** Truthiness of a number: [x or 0], [if x]. *)
Definition truthy (r : Q) : bool := negb (Qeq_bool r 0).

(** [f"{r:.1f}"]: one decimal, the exact value rounded half to even. *)
Definition round_half_even (q : Q) : Z :=
  let n := Qnum q in
  let d := Z.pos (Qden q) in
  let fl := n / d in
  let r2 := 2 * (n mod d) in
  if r2 <? d then fl
  else if d <? r2 then fl + 1
  else if Z.even fl then fl else fl + 1.

Definition format_1f (r : Q) : string :=
  let t := round_half_even (Qabs r * 10) in
  (if Qle_bool 0 r then "" else "-")
    +:+ pretty (t / 10) +:+ "." +:+ pretty (t mod 10).

(** [sorted(l, key=key, reverse=True)]: a stable sort into descending
    order of the key; items with equal keys keep their order in [l].
    [lt] is the comparison [<] on keys. *)
Section Sorted.
Context {A K : Type} (key : A → K) (lt : K → K → bool).

Fixpoint insert_reverse (x : A) (l : list A) : list A :=
  match l with
  | [] => [x]
  | y :: l' =>
      if lt (key x) (key y) then y :: insert_reverse x l'
      else x :: y :: l'
  end.

Definition sorted_reverse (l : list A) : list A :=
  foldr insert_reverse [] l.

(** [x] may stand before [y] in the result: its key is not smaller. *)
Definition not_below (x y : A) : Prop := lt (key x) (key y) = false.

(** [x] has a key equal to [k], as far as [<] can tell. *)
Definition same_key (k : K) (x : A) : Prop :=
  lt k (key x) = false ∧ lt (key x) k = false.

Global Instance same_key_dec k x : Decision (same_key k x).
Proof. unfold same_key. apply _. Defined.
End Sorted.

Definition Qlt_bool (a b : Q) : bool := negb (Qle_bool b a).

(** ** Data model *)

Module MovieItem.
Record t := mk {
  id : Z;
  title : string;
  year : Z;
  genres : list string;
  runtime : Z;
  overview : string;
  imdb_rating : Q;
  tmdb_rating : Q;
  has_file : bool
}.
End MovieItem.

Module SeriesItem.
Record t := mk {
  id : Z;
  title : string;
  year : Z;
  genres : list string;
  runtime : Z;
  overview : string;
  rating : Q;
  episode_count : Z;
  series_type : string
}.
End SeriesItem.

(** Raw JSON records of the two catalog endpoints. [None] is an absent key. *)
Module Raw.
Record rating := mk_rating { value : option Q }.

Record movie_ratings := mk_movie_ratings {
  imdb : option rating;
  tmdb : option rating
}.

Record statistics := mk_statistics { episodeFileCount : option Z }.

Record movie := mk_movie {
  m_id : option Z;
  m_title : option string;
  m_year : option Z;
  m_genres : option (list string);
  m_runtime : option Z;
  m_overview : option string;
  m_hasFile : option bool;
  m_ratings : option movie_ratings
}.

Record series := mk_series {
  s_id : option Z;
  s_title : option string;
  s_year : option Z;
  s_genres : option (list string);
  s_runtime : option Z;
  s_overview : option string;
  s_seriesType : option string;
  s_ratings : option rating;
  s_statistics : option statistics
}.
End Raw.

(** [d.get(key, dflt)] on an optional field. *)
Definition get {A} (field : option A) (dflt : A) : A := default dflt field.

(** ** RadarrClient.get_movies and SonarrClient.get_series: the loops *)

Definition movie_of_raw (item : Raw.movie) : MovieItem.t :=
  let ratings := get (Raw.m_ratings item) (Raw.mk_movie_ratings None None) in
  let imdb := get (Raw.value (get (Raw.imdb ratings) (Raw.mk_rating None))) 0%Q in
  let tmdb := get (Raw.value (get (Raw.tmdb ratings) (Raw.mk_rating None))) 0%Q in
  MovieItem.mk
    (get (Raw.m_id item) 0)
    (get (Raw.m_title item) "Unknown")
    (get (Raw.m_year item) 0)
    (get (Raw.m_genres item) [])
    (get (Raw.m_runtime item) 0)
    (get (Raw.m_overview item) "")
    imdb tmdb true.

Fixpoint get_movies_loop (data : list Raw.movie) (movies : list MovieItem.t)
  : list MovieItem.t :=
  match data with
  | [] => movies
  | item :: data' =>
      if negb (get (Raw.m_hasFile item) false) then get_movies_loop data' movies
      else get_movies_loop data' (movies ++ [movie_of_raw item])
  end.

Definition raw_episode_count (item : Raw.series) : Z :=
  let stats := get (Raw.s_statistics item) (Raw.mk_statistics None) in
  get (Raw.episodeFileCount stats) 0.

Definition series_of_raw (item : Raw.series) : SeriesItem.t :=
  let episode_count := raw_episode_count item in
  let ratings := get (Raw.s_ratings item) (Raw.mk_rating None) in
  SeriesItem.mk
    (get (Raw.s_id item) 0)
    (get (Raw.s_title item) "Unknown")
    (get (Raw.s_year item) 0)
    (get (Raw.s_genres item) [])
    (get (Raw.s_runtime item) 0)
    (get (Raw.s_overview item) "")
    (get (Raw.value ratings) 0%Q)
    episode_count
    (get (Raw.s_seriesType item) "standard").

Fixpoint get_series_loop (data : list Raw.series) (series_list : list SeriesItem.t)
  : list SeriesItem.t :=
  match data with
  | [] => series_list
  | item :: data' =>
      if raw_episode_count item =? 0 then get_series_loop data' series_list
      else get_series_loop data' (series_list ++ [series_of_raw item])
  end.

(** ** ArrAPIClient and its two subclasses *)

(** What [_get] can raise: a transport error from [client.get] or the
    status error of [response.raise_for_status()]. *)
Inductive httpx_error :=
  | RequestError (msg : string)
  | HTTPStatusError (status : Z).

Inductive outcome (A : Type) :=
  | Return (a : A)
  | Raise (e : httpx_error).
Arguments Return {A} a.
Arguments Raise {A} e.

(** A client together with the service behind it: [reply n] is what the
    service answers to the [n]-th GET of this client (an exception, or the
    parsed JSON array), [sent] the number of GETs issued so far. *)
Record ArrAPIClient (R : Type) := mk_client {
  reply : nat → httpx_error + list R;
  sent : nat
}.
Arguments mk_client {R} reply sent.
Arguments reply {R} _ _.
Arguments sent {R} _.

Definition _get {R} (self : ArrAPIClient R) : ArrAPIClient R * outcome (list R) :=
  let self' := mk_client (reply self) (S (sent self)) in
  match reply self (sent self) with
  | inl e => (self', Raise e)
  | inr data => (self', Return data)
  end.

Definition get_movies (self : ArrAPIClient Raw.movie)
  : ArrAPIClient Raw.movie * outcome (list MovieItem.t) :=
  match _get self with
  | (self', Raise e) => (self', Raise e)
  | (self', Return data) => (self', Return (get_movies_loop data []))
  end.

Definition get_series (self : ArrAPIClient Raw.series)
  : ArrAPIClient Raw.series * outcome (list SeriesItem.t) :=
  match _get self with
  | (self', Raise e) => (self', Raise e)
  | (self', Return data) => (self', Return (get_series_loop data []))
  end.

(** ** MediaLibrary *)

Record MediaLibrary := mk_library {
  radarr : ArrAPIClient Raw.movie;
  sonarr : ArrAPIClient Raw.series;
  _movies : option (list MovieItem.t);
  _series : option (list SeriesItem.t)
}.

(** [MediaLibrary(...)]: two fresh clients, both caches [None]. *)
Definition new_library (movie_service : nat → httpx_error + list Raw.movie)
    (series_service : nat → httpx_error + list Raw.series) : MediaLibrary :=
  mk_library (mk_client movie_service 0%nat) (mk_client series_service 0%nat)
    None None.

(** A method: the instance afterwards, and the value returned or the
    exception raised. An exception ends the method; what was assigned to
    the instance before it stays assigned. *)
Definition Method (A : Type) : Type := MediaLibrary → MediaLibrary * outcome A.

Definition ret {A} (a : A) : Method A := λ self, (self, Return a).

Definition bind {A B} (m : Method A) (k : A → Method B) : Method B :=
  λ self,
    match m self with
    | (self', Return a) => k a self'
    | (self', Raise e) => (self', Raise e)
    end.

Notation "'let*' x := m 'in' k" := (bind m (λ x, k))
  (at level 10, x name, m at level 100, k at level 200).

(** The [movies] property. *)
Definition movies : Method (list MovieItem.t) :=
  λ self,
    match _movies self with
    | None =>
        match get_movies (radarr self) with
        | (radarr', Raise e) =>
            (mk_library radarr' (sonarr self) (_movies self) (_series self), Raise e)
        | (radarr', Return l) =>
            (mk_library radarr' (sonarr self) (Some l) (_series self), Return l)
        end
    | Some l => (self, Return l)
    end.

(** The [series] property. *)
Definition series : Method (list SeriesItem.t) :=
  λ self,
    match _series self with
    | None =>
        match get_series (sonarr self) with
        | (sonarr', Raise e) =>
            (mk_library (radarr self) sonarr' (_movies self) (_series self), Raise e)
        | (sonarr', Return l) =>
            (mk_library (radarr self) sonarr' (_movies self) (Some l), Return l)
        end
    | Some l => (self, Return l)
    end.

(** The condition of the [anime] comprehension. *)
Definition is_anime (s : SeriesItem.t) : bool :=
  bool_decide (SeriesItem.series_type s = "anime")
  || list_in "anime" (lower <$> SeriesItem.genres s).

Definition anime_of (series : list SeriesItem.t) : list SeriesItem.t :=
  filter (λ s, is_anime s = true) series.

Definition tv_shows_of (anime series : list SeriesItem.t) : list SeriesItem.t :=
  let anime_ids : gset Z := list_to_set (SeriesItem.id <$> anime) in
  filter (λ s, SeriesItem.id s ∉ anime_ids) series.

(** The [anime] property. *)
Definition anime : Method (list SeriesItem.t) :=
  let* series := series in
  ret (anime_of series).

(** The [tv_shows] property: [self.anime] first, then [self.series]. *)
Definition tv_shows : Method (list SeriesItem.t) :=
  let* anime := anime in
  let* series := series in
  ret (tv_shows_of anime series).

(** ** get_media_summary *)

Definition newline : string := String (Ascii.ascii_of_nat 10) "".

(** The sort key [m.imdb_rating or 0]. *)
Definition or_0 (r : Q) : Q := if truthy r then r else 0%Q.

Definition movie_key (m : MovieItem.t) : Q := or_0 (MovieItem.imdb_rating m).
Definition series_key (s : SeriesItem.t) : Q := or_0 (SeriesItem.rating s).

(** [f"{r:.1f}" if r else "-"]. *)
Definition rating_cell (r : Q) : string := if truthy r then format_1f r else "-".

(** [", ".join(genres[:3]) if genres else "-"]. *)
Definition genres_cell (genres : list string) : string :=
  match genres with
  | [] => "-"
  | _ :: _ => join ", " (take 3 genres)
  end.

(** [", ".join([g for g in anime.genres[:3] if g.lower() != "anime"]) or "-"]. *)
Definition anime_genres_cell (genres : list string) : string :=
  let joined := join ", " (filter (λ g, lower g ≠ "anime") (take 3 genres)) in
  if bool_decide (joined = "") then "-" else joined.

Definition table_row (c1 c2 c3 c4 c5 : string) : string :=
  "| " +:+ c1 +:+ " | " +:+ c2 +:+ " | " +:+ c3 +:+ " | " +:+ c4 +:+ " | "
    +:+ c5 +:+ " |".

Definition movie_row (movie : MovieItem.t) : string :=
  table_row (MovieItem.title movie) (pretty (MovieItem.year movie))
    (genres_cell (MovieItem.genres movie))
    (rating_cell (MovieItem.imdb_rating movie))
    (pretty (MovieItem.runtime movie) +:+ "m").

Definition show_row (show : SeriesItem.t) : string :=
  table_row (SeriesItem.title show) (pretty (SeriesItem.year show))
    (genres_cell (SeriesItem.genres show))
    (rating_cell (SeriesItem.rating show))
    (pretty (SeriesItem.episode_count show)).

Definition anime_row (anime : SeriesItem.t) : string :=
  table_row (SeriesItem.title anime) (pretty (SeriesItem.year anime))
    (anime_genres_cell (SeriesItem.genres anime))
    (rating_cell (SeriesItem.rating anime))
    (pretty (SeriesItem.episode_count anime)).

Definition total_line (what : string) (n : nat) : string :=
  newline +:+ "*Total " +:+ what +:+ " available: " +:+ pretty n +:+ "*" +:+ newline.

(** The items behind the rows of the three tables. *)
Definition sorted_movies (movies : list MovieItem.t) : list MovieItem.t :=
  sorted_reverse movie_key Qlt_bool movies.

Definition sorted_series (l : list SeriesItem.t) : list SeriesItem.t :=
  sorted_reverse series_key Qlt_bool l.

Definition get_media_summary_lines : Method (list string) :=
  let lines := ["# Available Media Library" +:+ newline] in
  let lines := lines ++ ["## Movies"] in
  let lines := lines ++ ["| Title | Year | Genres | Rating | Runtime |"] in
  let lines := lines ++ ["|-------|------|--------|--------|---------|"] in
  let* ms := movies in
  let lines := lines ++ (movie_row <$> take 100 (sorted_movies ms)) in
  let* ms' := movies in
  let lines := lines ++ [total_line "movies" (length ms')] in
  let lines := lines ++ ["## TV Shows"] in
  let lines := lines ++ ["| Title | Year | Genres | Rating | Episodes |"] in
  let lines := lines ++ ["|-------|------|--------|--------|----------|"] in
  let* shows := tv_shows in
  let lines := lines ++ (show_row <$> take 50 (sorted_series shows)) in
  let* shows' := tv_shows in
  let lines := lines ++ [total_line "TV shows" (length shows')] in
  let lines := lines ++ ["## Anime"] in
  let lines := lines ++ ["| Title | Year | Genres | Rating | Episodes |"] in
  let lines := lines ++ ["|-------|------|--------|--------|----------|"] in
  let* an := anime in
  let lines := lines ++ (anime_row <$> take 50 (sorted_series an)) in
  let* an' := anime in
  let lines := lines ++ [total_line "anime" (length an')] in
  ret lines.

Definition get_media_summary : Method string :=
  let* lines := get_media_summary_lines in
  ret (join newline lines).

(** ** get_genre_stats *)

(** A [dict[str, int]] with its insertion order: an association list with
    distinct keys; assigning to a key that is present keeps its place, a new
    key goes last. *)
Definition dict := list (string * Z).

Fixpoint dict_get (d : dict) (k : string) (dflt : Z) : Z :=
  match d with
  | [] => dflt
  | (k', v) :: d' => if bool_decide (k' = k) then v else dict_get d' k dflt
  end.

Fixpoint dict_set (d : dict) (k : string) (v : Z) : dict :=
  match d with
  | [] => [(k, v)]
  | (k', v') :: d' =>
      if bool_decide (k' = k) then (k, v) :: d' else (k', v') :: dict_set d' k v
  end.

(** [dict(items)]. *)
Definition dict_of_items (items : list (string * Z)) : dict :=
  foldl (λ d kv, dict_set d kv.1 kv.2) [] items.

(** [for genre in genres: genre_counts[genre] = genre_counts.get(genre, 0) + 1]. *)
Definition count_genres (genre_counts : dict) (genres : list string) : dict :=
  foldl (λ d genre, dict_set d genre (dict_get d genre 0 + 1)) genre_counts genres.

Definition genre_counts_of (movies : list MovieItem.t) (series : list SeriesItem.t)
  : dict :=
  let genre_counts : dict := [] in
  let genre_counts :=
    foldl (λ d movie, count_genres d (MovieItem.genres movie)) genre_counts movies in
  foldl (λ d s, count_genres d (SeriesItem.genres s)) genre_counts series.

Definition get_genre_stats : Method dict :=
  let* ms := movies in
  let genre_counts : dict := [] in
  let genre_counts :=
    foldl (λ d movie, count_genres d (MovieItem.genres movie)) genre_counts ms in
  let* ss := series in
  let genre_counts :=
    foldl (λ d s, count_genres d (SeriesItem.genres s)) genre_counts ss in
  ret (dict_of_items (sorted_reverse snd Z.ltb genre_counts)).

(** ** search_by_theme *)

Fixpoint _matches_theme_loop (genres_lower : list string) (overview_lower : string)
    (keywords : list string) : bool :=
  match keywords with
  | [] => false
  | keyword :: keywords' =>
      if list_in keyword genres_lower || str_in keyword overview_lower then true
      else _matches_theme_loop genres_lower overview_lower keywords'
  end.

Definition _matches_theme (genres : list string) (overview : string)
    (keywords : list string) : bool :=
  let genres_lower := lower <$> genres in
  let overview_lower := lower overview in
  _matches_theme_loop genres_lower overview_lower keywords.

(** The dictionary [search_by_theme] returns, by its three keys. *)
Record theme_result := mk_theme_result {
  r_movies : list MovieItem.t;
  r_shows : list SeriesItem.t;
  r_anime : list SeriesItem.t
}.

(** [for x in l: if cond(x): matching.append(x)]. *)
Definition append_matching {A} (cond : A → bool) (l : list A) : list A :=
  foldl (λ matching x, if cond x then matching ++ [x] else matching) [] l.

Definition search_by_theme (theme_keywords : list string) : Method theme_result :=
  let keywords_lower := lower <$> theme_keywords in
  let* ms := movies in
  let matching_movies :=
    append_matching
      (λ m, _matches_theme (MovieItem.genres m) (MovieItem.overview m) keywords_lower)
      ms in
  let* shows := tv_shows in
  let matching_shows :=
    append_matching
      (λ s, _matches_theme (SeriesItem.genres s) (SeriesItem.overview s) keywords_lower)
      shows in
  let* an := anime in
  let matching_anime :=
    append_matching
      (λ s, _matches_theme (SeriesItem.genres s) (SeriesItem.overview s) keywords_lower)
      an in
  ret (mk_theme_result matching_movies matching_shows matching_anime).

(** ** Definitions used to state the properties *)

(** The raw record carries [hasFile], and it is [true]. *)
Definition has_file_flag (item : Raw.movie) : Prop := Raw.m_hasFile item = Some true.

Global Instance has_file_flag_dec item : Decision (has_file_flag item).
Proof. unfold has_file_flag. apply _. Defined.

(** The scenario record of the movie catalog. *)
Definition movie_a : Raw.movie :=
  Raw.mk_movie (Some 1) (Some "Movie A") (Some 2020) (Some ["Action"]) None None
    (Some true)
    (Some (Raw.mk_movie_ratings (Some (Raw.mk_rating (Some (17 # 2)%Q))) None)).

(** The scenario catalogs: one record with a file beside one without, one
    anime series with twelve downloaded episodes beside one with none. *)
Definition no_file_movie : Raw.movie :=
  Raw.mk_movie (Some 2) (Some "Movie B") None None None None (Some false) None.

Definition scenario_radarr : ArrAPIClient Raw.movie :=
  mk_client (λ _, inr [movie_a; no_file_movie]) 0.

Definition show_x : Raw.series :=
  Raw.mk_series (Some 5) (Some "Show X") None None None None (Some "anime") None
    (Some (Raw.mk_statistics (Some 12))).

Definition no_episode_show : Raw.series :=
  Raw.mk_series (Some 6) (Some "Show Y") None None None None None None
    (Some (Raw.mk_statistics (Some 0))).

Definition scenario_sonarr : ArrAPIClient Raw.series :=
  mk_client (λ _, inr [show_x; no_episode_show]) 0.

(** The set of identifiers appearing in a list of series. *)
Definition series_ids (l : list SeriesItem.t) : gset Z :=
  list_to_set (SeriesItem.id <$> l).

(** Two series sharing identifier 7, only the first of them anime. *)
Definition twin_series : list SeriesItem.t :=
  [SeriesItem.mk 7 "A" 0 [] 0 "" 0 1 "anime";
   SeriesItem.mk 7 "B" 0 [] 0 "" 0 1 "standard"].

Global Instance Qeq_decision (a b : Q) : Decision (a == b)%Q.
Proof. destruct (Qeq_dec a b); [by left | by right]. Defined.

(** The lines of the three tables, and of the whole document, as functions
    of the cached lists. *)
Definition movies_table (ms : list MovieItem.t) : list string :=
  ["## Movies";
   "| Title | Year | Genres | Rating | Runtime |";
   "|-------|------|--------|--------|---------|"]
  ++ (movie_row <$> take 100 (sorted_movies ms))
  ++ [total_line "movies" (length ms)].

Definition shows_table (shows : list SeriesItem.t) : list string :=
  ["## TV Shows";
   "| Title | Year | Genres | Rating | Episodes |";
   "|-------|------|--------|--------|----------|"]
  ++ (show_row <$> take 50 (sorted_series shows))
  ++ [total_line "TV shows" (length shows)].

Definition anime_table (an : list SeriesItem.t) : list string :=
  ["## Anime";
   "| Title | Year | Genres | Rating | Episodes |";
   "|-------|------|--------|--------|----------|"]
  ++ (anime_row <$> take 50 (sorted_series an))
  ++ [total_line "anime" (length an)].

Definition summary_lines_of (ms : list MovieItem.t) (ss : list SeriesItem.t)
  : list string :=
  ["# Available Media Library" +:+ newline]
  ++ movies_table ms
  ++ shows_table (tv_shows_of (anime_of ss) ss)
  ++ anime_table (anime_of ss).

(** Five movies, two pairs of them tied on their rating. *)
Definition ranked_movies : list MovieItem.t :=
  [MovieItem.mk 1 "A" 2001 ["Drama"] 90 "" 7 0 true;
   MovieItem.mk 2 "B" 2002 [] 91 "" 0 0 true;
   MovieItem.mk 3 "C" 2003 ["Action"; "Drama"] 92 "" (17 # 2) 0 true;
   MovieItem.mk 4 "D" 2004 ["Comedy"] 93 "" 7 0 true;
   MovieItem.mk 5 "E" 2005 [] 94 "" 0 0 true].

(** The genres cell as the specification words it: exclude the "anime"
    token from the genre list, then take the first 3 of what remains,
    joined by ", ", or "-" if none remain. *)
Definition spec_anime_genres_cell (genres : list string) : string :=
  match take 3 (filter (λ g, lower g ≠ "anime") genres) with
  | [] => "-"
  | kept => join ", " kept
  end.

(** A series whose fourth genre is lost to the "anime" token in front. *)
Definition four_genre_anime : SeriesItem.t :=
  SeriesItem.mk 5 "Show X" 0 ["Anime"; "Action"; "Drama"; "Comedy"] 0 "" 0 12 "anime".

(** All genre occurrences in scan order: movies first, then series. *)
Definition all_genres (ms : list MovieItem.t) (ss : list SeriesItem.t) : list string :=
  (ms ≫= MovieItem.genres) ++ (ss ≫= SeriesItem.genres).

(** How often [g] occurs in [l]. *)
Definition occurrences (g : string) (l : list string) : Z :=
  Z.of_nat (length (filter (λ x, x = g) l)).

(** The position of the first occurrence of [g] in [l]. *)
Fixpoint first_index (g : string) (l : list string) : nat :=
  match l with
  | [] => 0
  | x :: l' => if decide (x = g) then 0 else S (first_index g l')
  end.

(** The distinct elements of [l], each at the place of its first occurrence. *)
Definition note_seen (seen : list string) (g : string) : list string :=
  if decide (g ∈ seen) then seen else seen ++ [g].

Definition first_seen (l : list string) : list string := foldl note_seen [] l.

(** The sum of the counts of a dictionary. *)
Definition total (d : dict) : Z := foldr (λ kv acc, kv.2 + acc) 0 d.

(** What [get_genre_stats] returns on the cached lists. *)
Definition genre_stats_of (ms : list MovieItem.t) (ss : list SeriesItem.t) : dict :=
  dict_of_items (sorted_reverse snd Z.ltb (genre_counts_of ms ss)).

(** A small library with six genre occurrences of four genres. *)
Definition genre_movies : list MovieItem.t :=
  [MovieItem.mk 1 "A" 2001 ["Drama"; "Action"] 90 "" 7 0 true;
   MovieItem.mk 2 "B" 2002 ["Comedy"] 91 "" 0 0 true].

Definition genre_series : list SeriesItem.t :=
  [SeriesItem.mk 7 "S" 2010 ["Comedy"; "Anime"; "Action"] 24 "" 0 3 "anime"].

(** [p] occurs in [s] as a substring. *)
Definition is_substring (p s : string) : Prop :=
  ∃ pre post, s = pre +:+ p +:+ post.

(** Some keyword equals one of the genres, or occurs in the synopsis, both
    compared without regard to case. *)
Definition theme_matches (genres : list string) (overview : string)
    (keywords : list string) : Prop :=
  ∃ k, k ∈ keywords
       ∧ ((∃ g, g ∈ genres ∧ lower k = lower g)
          ∨ is_substring (lower k) (lower overview)).

(** The test [search_by_theme] applies to a movie and to a series. *)
Definition movie_matches (keywords : list string) (m : MovieItem.t) : bool :=
  _matches_theme (MovieItem.genres m) (MovieItem.overview m) (lower <$> keywords).

Definition series_matches (keywords : list string) (s : SeriesItem.t) : bool :=
  _matches_theme (SeriesItem.genres s) (SeriesItem.overview s) (lower <$> keywords).

(** What [search_by_theme] returns on the cached lists. *)
Definition search_of (keywords : list string) (ms : list MovieItem.t)
    (ss : list SeriesItem.t) : theme_result :=
  mk_theme_result
    (filter (λ m, movie_matches keywords m = true) ms)
    (filter (λ s, series_matches keywords s = true) (tv_shows_of (anime_of ss) ss))
    (filter (λ s, series_matches keywords s = true) (anime_of ss)).

(** A library in which "anime" is in one synopsis and in one genre list. *)
Definition themed_movies : list MovieItem.t :=
  [MovieItem.mk 1 "A" 2001 ["Drama"] 90 "An Anime-inspired heist." 7 0 true;
   MovieItem.mk 2 "B" 2002 ["Comedy"] 91 "Two friends." 0 0 true].

Definition themed_series : list SeriesItem.t :=
  [SeriesItem.mk 7 "S" 2010 ["Comedy"; "Anime"] 24 "" 0 3 "standard";
   SeriesItem.mk 8 "T" 2011 ["Drama"] 45 "A detective story." 0 9 "standard"].

(** The calls a user can make on a [MediaLibrary]. *)
Inductive call :=
  | Movies
  | Series
  | Anime
  | TvShows
  | GetMediaSummary
  | GetGenreStats
  | SearchByTheme (theme_keywords : list string).

(** The instance after a call, whether it returned or raised. *)
Definition perform (c : call) (self : MediaLibrary) : MediaLibrary :=
  match c with
  | Movies => (movies self).1
  | Series => (series self).1
  | Anime => (anime self).1
  | TvShows => (tv_shows self).1
  | GetMediaSummary => (get_media_summary self).1
  | GetGenreStats => (get_genre_stats self).1
  | SearchByTheme theme_keywords => (search_by_theme theme_keywords self).1
  end.

(** The instance after a sequence of calls. *)
Definition lifetime (calls : list call) (self : MediaLibrary) : MediaLibrary :=
  foldl (λ self c, perform c self) self calls.

(** The history of one cache and its client: while the cache is [None]
    every GET sent so far has failed; once it is populated, the last GET
    sent is the only one that succeeded, and the cache holds what [build]
    makes of its reply. *)
Definition fetched_once {R I} (build : list R → list I) (client : ArrAPIClient R)
    (cache : option (list I)) : Prop :=
  match cache with
  | None => ∀ n, (n < sent client)%nat → ∃ e, reply client n = inl e
  | Some items =>
      ∃ k data, sent client = S k ∧ reply client k = inr data
                ∧ items = build data
                ∧ ∀ n, (n < k)%nat → ∃ e, reply client n = inl e
  end.

Definition movies_fetched_once (self : MediaLibrary) : Prop :=
  fetched_once (λ data, get_movies_loop data []) (radarr self) (_movies self).

Definition series_fetched_once (self : MediaLibrary) : Prop :=
  fetched_once (λ data, get_series_loop data []) (sonarr self) (_series self).

(** A property of the instance that the two cache accessors keep is kept
    by every method, all of them being built from the two. *)
Definition kept_by_accessors (P : MediaLibrary → Prop) : Prop :=
  (∀ self, P self → P (movies self).1) ∧ (∀ self, P self → P (series self).1).

(** The method [m] keeps the property [P] of the instance. *)
Definition keeps {A} (P : MediaLibrary → Prop) (m : Method A) : Prop :=
  ∀ self, P self → P (m self).1.

(** A movie service that fails once and answers afterwards, and a series
    service that always answers. *)
Definition flaky_movie_service (n : nat) : httpx_error + list Raw.movie :=
  match n with
  | O => inl (HTTPStatusError 503)
  | S _ => inr [movie_a; no_file_movie]
  end.

Definition steady_series_service (n : nat) : httpx_error + list Raw.series :=
  inr [show_x; no_episode_show].

(** Services that are down. *)
Definition failing_movie_service (n : nat) : httpx_error + list Raw.movie :=
  inl (RequestError "connection refused").

Definition failing_series_service (n : nat) : httpx_error + list Raw.series :=
  inl (HTTPStatusError 500).

(** ** The rest of the clients *)

(** [s.rstrip("/")]: [s] without its trailing slashes. *)
Fixpoint rstrip_slash (s : string) : string :=
  match s with
  | EmptyString => EmptyString
  | String c s' =>
      match rstrip_slash s' with
      | EmptyString =>
          if bool_decide (c = "/"%char) then EmptyString else String c EmptyString
      | String c' r => String c (String c' r)
      end
  end.

(** A run of [n] slashes. *)
Fixpoint slashes (n : nat) : string :=
  match n with
  | O => EmptyString
  | S n' => String "/"%char (slashes n')
  end.

(** What [_get] hands to [client.get]: the URL and the headers. *)
Record http_request := mk_request {
  request_url : string;
  request_headers : list (string * string)
}.

(** [ArrAPIClient.__init__] stores [base_url.rstrip("/")] as [self.base_url]. *)
Definition init_base_url (base_url : string) : string := rstrip_slash base_url.

(** The request [_get(endpoint)] composes from [self.base_url] and
    [self.api_key]. *)
Definition _get_request (self_base_url self_api_key endpoint : string) : http_request :=
  mk_request (self_base_url +:+ "/api/v3/" +:+ endpoint)
    [("X-Api-Key", self_api_key)].

(** The request of a client constructed as [ArrAPIClient(base_url, api_key)]. *)
Definition client_request (base_url api_key endpoint : string) : http_request :=
  _get_request (init_base_url base_url) api_key endpoint.

(** [any(f(x) for x in l)]. *)
Fixpoint any {A} (f : A → bool) (l : list A) : bool :=
  match l with
  | [] => false
  | x :: l' => if f x then true else any f l'
  end.

(** [any(g.lower() == genre_lower for g in genres)]. *)
Definition any_genre_is (genre_lower : string) (genres : list string) : bool :=
  any (λ g, bool_decide (lower g = genre_lower)) genres.

Definition get_movies_by_genre (genre : string) (self : ArrAPIClient Raw.movie)
  : ArrAPIClient Raw.movie * outcome (list MovieItem.t) :=
  match get_movies self with
  | (self', Raise e) => (self', Raise e)
  | (self', Return movies) =>
      let genre_lower := lower genre in
      (self',
       Return (filter (λ m, any_genre_is genre_lower (MovieItem.genres m) = true)
                 movies))
  end.


(** [SonarrClient.get_anime]: the comprehension has the condition of
    [MediaLibrary.anime], word for word. *)
Definition get_anime (self : ArrAPIClient Raw.series)
  : ArrAPIClient Raw.series * outcome (list SeriesItem.t) :=
  match get_series self with
  | (self', Raise e) => (self', Raise e)
  | (self', Return series) =>
      (self', Return (filter (λ s, is_anime s = true) series))
  end.

(** ** Configuration ([src/playlist_agent/config.py])

    The parsed YAML document is typed: its four service sections are
    dictionaries from strings to strings, [themes] a list of theme records.
    The environment is a finite map from variable names to values, and
    [os.getenv] its lookup. *)

Module ThemeConfig.
Record t := mk {
  name : string;
  description : string;
  duration : Z;
  keywords : list string
}.
End ThemeConfig.

Module OllamaConfig.
Record t := mk { url : string; model : string }.
End OllamaConfig.

Module ErsatzTVConfig.
Record t := mk { url : string }.
End ErsatzTVConfig.

Module RadarrConfig.
Record t := mk { url : string; api_key : string }.
End RadarrConfig.

Module SonarrConfig.
Record t := mk { url : string; api_key : string }.
End SonarrConfig.

Module AgentConfig.
Record t := mk {
  ollama : OllamaConfig.t;
  ersatztv : ErsatzTVConfig.t;
  radarr : RadarrConfig.t;
  sonarr : SonarrConfig.t;
  themes : list ThemeConfig.t
}.
End AgentConfig.

(** A theme as the YAML document has it: [duration] and [keywords] may be
    absent. *)
Record raw_theme := mk_raw_theme {
  t_name : string;
  t_description : string;
  t_duration : option Z;
  t_keywords : option (list string)
}.

(** [config_data]: the service sections by name, and [themes] if present. *)
Record config_data := mk_config_data {
  sections : gmap string (gmap string string);
  raw_themes : option (list raw_theme)
}.

(** [config_data.setdefault(section, {})[key] = value]. *)
Definition setdefault_set (section key value : string)
    (d : gmap string (gmap string string)) : gmap string (gmap string string) :=
  <[section := <[key := value]> (default ∅ (d !! section))]> d.

(** [if value := os.getenv(var): config_data.setdefault(section, {})[key] = value]:
    an unset variable and an empty one are both falsy. *)
Definition env_override (env : gmap string string) (var section key : string)
    (d : gmap string (gmap string string)) : gmap string (gmap string string) :=
  match env !! var with
  | Some value => if bool_decide (value = "") then d else setdefault_set section key value d
  | None => d
  end.

(** The model classes built from their dictionaries, with the defaults of
    their fields. *)
Definition build_theme (t : raw_theme) : ThemeConfig.t :=
  ThemeConfig.mk (t_name t) (t_description t)
    (default 180 (t_duration t)) (default [] (t_keywords t)).

Definition build_ollama (s : gmap string string) : OllamaConfig.t :=
  OllamaConfig.mk (default "http://localhost:11434" (s !! "url"))
    (default "llama3:8b" (s !! "model")).

Definition build_ersatztv (s : gmap string string) : ErsatzTVConfig.t :=
  ErsatzTVConfig.mk (default "http://localhost:8409" (s !! "url")).

Definition build_radarr (s : gmap string string) : RadarrConfig.t :=
  RadarrConfig.mk (default "http://localhost:7878" (s !! "url"))
    (default "" (s !! "api_key")).

Definition build_sonarr (s : gmap string string) : SonarrConfig.t :=
  SonarrConfig.mk (default "http://localhost:8989" (s !! "url"))
    (default "" (s !! "api_key")).

(** [AgentConfig] built from the keys of [config_data]: an absent section
    is built from no keys, absent [themes] are the empty list. *)
Definition build_agent_config (d : config_data) : AgentConfig.t :=
  AgentConfig.mk
    (build_ollama (default ∅ (sections d !! "ollama")))
    (build_ersatztv (default ∅ (sections d !! "ersatztv")))
    (build_radarr (default ∅ (sections d !! "radarr")))
    (build_sonarr (default ∅ (sections d !! "sonarr")))
    (build_theme <$> default [] (raw_themes d)).

(** [load_config]: [file] is what [yaml.safe_load] read, [None] when there
    is no path, no file at the path, or nothing in the file. *)
Definition load_config (file : option config_data) (env : gmap string string)
  : AgentConfig.t :=
  let config_data := default (mk_config_data ∅ None) file in
  let s := sections config_data in
  let s := env_override env "OLLAMA_URL" "ollama" "url" s in
  let s := env_override env "OLLAMA_MODEL" "ollama" "model" s in
  let s := env_override env "ERSATZTV_URL" "ersatztv" "url" s in
  let s := env_override env "RADARR_URL" "radarr" "url" s in
  let s := env_override env "RADARR_API_KEY" "radarr" "api_key" s in
  let s := env_override env "SONARR_URL" "sonarr" "url" s in
  let s := env_override env "SONARR_API_KEY" "sonarr" "api_key" s in
  build_agent_config (mk_config_data s (raw_themes config_data)).

(** The value the file gives a key of a section, if it gives one. *)
Definition in_file (file : option config_data) (section key : string)
  : option string :=
  match file with
  | Some d =>
      match sections d !! section with
      | Some s => s !! key
      | None => None
      end
  | None => None
  end.

(** The value of one setting: the environment variable when it is set and
    not empty, else the value in the file, else the default. *)
Definition setting (env : gmap string string) (file : option config_data)
    (var section key dflt : string) : string :=
  let in_file := in_file file section key in
  match env !! var with
  | Some value => if bool_decide (value = "") then default dflt in_file else value
  | None => default dflt in_file
  end.

(** A configuration file that sets the Radarr section only. *)
Definition radarr_only_file : config_data :=
  mk_config_data
    {[ "radarr" := {[ "url" := "http://radarr:7878"; "api_key" := "file-key" ]} ]}
    (Some [mk_raw_theme "Noir" "Crime at night" None (Some ["noir"])]).

(** ** Definitions used to state the further properties *)

(** The raw record is anime: by its [seriesType], or by one of its genres. *)
Definition raw_is_anime (r : Raw.series) : Prop :=
  Raw.s_seriesType r = Some "anime"
  ∨ ∃ g, g ∈ default [] (Raw.s_genres r) ∧ lower g = "anime".

(** The rows of a series table: the first 50 of the list, sorted. *)
Definition ranked_rows (rows l : list SeriesItem.t) : Prop :=
  rows = take 50 (sorted_series l)
  ∧ length rows = (50 `min` length l)%nat
  ∧ (∀ s, s ∈ rows → s ∈ l)
  ∧ (∀ i j s1 s2, rows !! i = Some s1 → rows !! j = Some s2 → (i < j)%nat →
       (SeriesItem.rating s2 <= SeriesItem.rating s1)%Q)
  ∧ (∀ r, filter (λ s, SeriesItem.rating s == r)%Q rows
          `prefix_of` filter (λ s, SeriesItem.rating s == r)%Q l).

(** The results of [r1] and [r2] together make up those of [r]. *)
Definition results_join (r1 r2 r : theme_result) : Prop :=
  ((∀ m, m ∈ r_movies r ↔ m ∈ r_movies r1 ∨ m ∈ r_movies r2)
   ∧ r_movies r1 `sublist_of` r_movies r ∧ r_movies r2 `sublist_of` r_movies r)
  ∧ ((∀ s, s ∈ r_shows r ↔ s ∈ r_shows r1 ∨ s ∈ r_shows r2)
     ∧ r_shows r1 `sublist_of` r_shows r ∧ r_shows r2 `sublist_of` r_shows r)
  ∧ ((∀ s, s ∈ r_anime r ↔ s ∈ r_anime r1 ∨ s ∈ r_anime r2)
     ∧ r_anime r1 `sublist_of` r_anime r ∧ r_anime r2 `sublist_of` r_anime r).

(** The value under [key] in the section [section], if both are there. *)
Definition section_get (d : gmap string (gmap string string))
    (section key : string) : option string :=
  match d !! section with
  | Some s => s !! key
  | None => None
  end.

(** * Properties *)

(** ** The catalog loops *)

Lemma get_movies_loop_app data movies :
  get_movies_loop data movies
  = movies ++ (movie_of_raw <$> filter has_file_flag data).
Proof.
  revert movies. induction data as [|item data IH]; intros movies; simpl.
  - by rewrite app_nil_r.
  - unfold has_file_flag at 1.
    destruct (Raw.m_hasFile item) as [[|]|] eqn:Hf; simpl.
    + rewrite IH, filter_cons_True by done. simpl. by rewrite <- app_assoc.
    + rewrite IH, filter_cons_False; [done | unfold has_file_flag; congruence].
    + rewrite IH, filter_cons_False; [done | unfold has_file_flag; congruence].
Qed.

Lemma get_series_loop_app data series_list :
  get_series_loop data series_list
  = series_list ++ (series_of_raw <$> filter (λ r, raw_episode_count r ≠ 0) data).
Proof.
  revert series_list. induction data as [|item data IH]; intros acc; simpl.
  - by rewrite app_nil_r.
  - destruct (Z.eqb_spec (raw_episode_count item) 0) as [E|E].
    + rewrite IH, filter_cons_False; [done | tauto].
    + rewrite IH, filter_cons_True by done. simpl. by rewrite <- app_assoc.
Qed.

Lemma get_movies_return (self : ArrAPIClient Raw.movie) data :
  reply self (sent self) = inr data →
  get_movies self
  = (mk_client (reply self) (S (sent self)),
     Return (movie_of_raw <$> filter has_file_flag data)).
Proof.
  intros H. unfold get_movies, _get. rewrite H.
  by rewrite get_movies_loop_app.
Qed.

Lemma get_series_return (self : ArrAPIClient Raw.series) data :
  reply self (sent self) = inr data →
  get_series self
  = (mk_client (reply self) (S (sent self)),
     Return (series_of_raw <$> filter (λ r, raw_episode_count r ≠ 0) data)).
Proof.
  intros H. unfold get_series, _get. rewrite H.
  by rewrite get_series_loop_app.
Qed.

(** In a list of records with pairwise distinct images under [f], a record
    left out by a filter has an image no kept record shares. *)
Lemma filtered_out_image {A B} (f : A → B) (P : A → Prop)
    `{!∀ x, Decision (P x)} (l : list A) (r : A) :
  NoDup (f <$> l) → r ∈ l → ¬ P r → f r ∉ (f <$> filter P l).
Proof.
  intros Hnd Hr HP Hin.
  apply list_elem_of_fmap in Hin as (r' & Heq & Hr').
  apply list_elem_of_filter in Hr' as [HP' Hr'].
  assert (r = r'); [|by subst].
  apply list_elem_of_lookup in Hr as [i Hi].
  apply list_elem_of_lookup in Hr' as [j Hj].
  assert (i = j) as ->.
  { eapply NoDup_lookup; [exact Hnd| |].
    - rewrite list_lookup_fmap, Hi. reflexivity.
    - rewrite list_lookup_fmap, Hj. simpl. by rewrite Heq. }
  congruence.
Qed.

(** C3. For every movie catalog response [data], [get_movies()] returns one
    [MovieItem] per raw record whose [hasFile] is present and true, in the
    order of the response, and nothing else; each item has [has_file] true
    and takes every other field from the record, with the defaults 0,
    "Unknown", 0, [], 0, "", 0.0 and 0.0 where the key (or the nested
    ratings key) is absent; with identifiers unique in the catalog, the
    identifier of a record without file appears nowhere in the result; and
    the catalog [movie_a; r] with [r] flagged [hasFile: false] yields exactly
    the one item "Movie A" with imdb rating 8.5 and tmdb rating 0.0. *)
Theorem get_movies_materializes_records_with_file
    (self : ArrAPIClient Raw.movie) (data : list Raw.movie) :
  reply self (sent self) = inr data →
  ∃ result,
    (get_movies self).2 = Return result
    ∧ result = (movie_of_raw <$> filter has_file_flag data)
    ∧ Forall (λ m, MovieItem.has_file m = true) result
    ∧ (∀ item,
         let m := movie_of_raw item in
         MovieItem.id m = default 0 (Raw.m_id item)
         ∧ MovieItem.title m = default "Unknown" (Raw.m_title item)
         ∧ MovieItem.year m = default 0 (Raw.m_year item)
         ∧ MovieItem.genres m = default [] (Raw.m_genres item)
         ∧ MovieItem.runtime m = default 0 (Raw.m_runtime item)
         ∧ MovieItem.overview m = default "" (Raw.m_overview item)
         ∧ MovieItem.imdb_rating m
           = default 0%Q ((Raw.m_ratings item ≫= Raw.imdb) ≫= Raw.value)
         ∧ MovieItem.tmdb_rating m
           = default 0%Q ((Raw.m_ratings item ≫= Raw.tmdb) ≫= Raw.value))
    ∧ (NoDup ((λ r, default 0 (Raw.m_id r)) <$> data) →
       ∀ r, r ∈ data → ¬ has_file_flag r →
            default 0 (Raw.m_id r) ∉ (MovieItem.id <$> result))
    ∧ (∀ r, data = [movie_a; r] → Raw.m_hasFile r = Some false →
         result = [MovieItem.mk 1 "Movie A" 2020 ["Action"] 0 "" (17 # 2) 0 true]).
Proof.
  intros Hreply. eexists. split; [by rewrite (get_movies_return _ _ Hreply)|].
  split; [done|]. split; [|split; [|split]].
  - apply Forall_forall. intros m Hm.
    apply list_elem_of_fmap in Hm as (r & -> & _). done.
  - intros item. cbn.
    destruct item as [? ? ? ? ? ? ? [[[[[?|]]|] [[[?|]]|]]|]]; cbn; done.
  - intros Hnd r Hr Hflag.
    rewrite <- list_fmap_compose.
    by apply (filtered_out_image (λ r, default 0 (Raw.m_id r))).
  - intros r -> Hr.
    rewrite filter_cons_True by done.
    rewrite filter_cons_False; [done | unfold has_file_flag; congruence].
Qed.


Lemma get_movies_scenario_witness :
  (get_movies scenario_radarr).2
  = Return [MovieItem.mk 1 "Movie A" 2020 ["Action"] 0 "" (17 # 2) 0 true]
  ∧ 2 ∉ MovieItem.id <$> [MovieItem.mk 1 "Movie A" 2020 ["Action"] 0 "" (17 # 2) 0 true].
Proof.
  destruct (get_movies_materializes_records_with_file scenario_radarr
              [movie_a; no_file_movie] eq_refl)
    as (result & Hret & _ & _ & _ & Hid & Hscenario).
  assert (result = [MovieItem.mk 1 "Movie A" 2020 ["Action"] 0 "" (17 # 2) 0 true])
    as Hres by (by apply (Hscenario no_file_movie)).
  split; [by rewrite Hret, Hres|].
  rewrite <- Hres. apply (Hid ltac:(compute_done) no_file_movie).
  - set_solver.
  - unfold has_file_flag. simpl. congruence.
Defined.


(** ** The caches and the derived views *)

Lemma movies_cached self ms :
  _movies self = Some ms → movies self = (self, Return ms).
Proof. intros H. unfold movies. by rewrite H. Qed.

Lemma series_cached self ss :
  _series self = Some ss → series self = (self, Return ss).
Proof. intros H. unfold series. by rewrite H. Qed.

Lemma anime_cached self ss :
  _series self = Some ss → anime self = (self, Return (anime_of ss)).
Proof. intros H. unfold anime, bind. by rewrite (series_cached _ _ H). Qed.

Lemma tv_shows_cached self ss :
  _series self = Some ss →
  tv_shows self = (self, Return (tv_shows_of (anime_of ss) ss)).
Proof.
  intros H. unfold tv_shows, bind.
  by rewrite (anime_cached _ _ H), (series_cached _ _ H).
Qed.

Lemma elem_of_series_ids x l :
  x ∈ series_ids l ↔ ∃ s, s ∈ l ∧ SeriesItem.id s = x.
Proof.
  unfold series_ids. rewrite elem_of_list_to_set, list_elem_of_fmap.
  split; intros (s & H1 & H2); exists s; by split.
Qed.

(** C2. On every cached series list [ss], [anime] is the sublist satisfying
    the anime predicate and [tv_shows] is [ss] without the items whose
    identifier is in the set of anime identifiers; the identifiers of the
    two views together are exactly the identifiers of [ss], and no
    identifier is in both. [tv_shows] is computed from the identifier set,
    not from the predicate: on [twin_series] it differs from the items
    failing the predicate. *)
Theorem anime_tv_shows_partition_by_id (self : MediaLibrary)
    (ss : list SeriesItem.t) :
  _series self = Some ss →
  ∃ an tv,
    anime self = (self, Return an)
    ∧ tv_shows self = (self, Return tv)
    ∧ an = filter (λ s, is_anime s = true) ss
    ∧ tv = filter (λ s, SeriesItem.id s ∉ series_ids an) ss
    ∧ series_ids an ∪ series_ids tv = series_ids ss
    ∧ series_ids an ∩ series_ids tv = ∅
    ∧ tv_shows_of (anime_of twin_series) twin_series
      ≠ filter (λ s, is_anime s ≠ true) twin_series.
Proof.
  intros Hc. exists (anime_of ss), (tv_shows_of (anime_of ss) ss).
  split; [by apply anime_cached|]. split; [by apply tv_shows_cached|].
  split; [done|]. split; [done|].
  unfold tv_shows_of. fold (series_ids (anime_of ss)).
  set (an := anime_of ss).
  split; [|split].
  - apply set_eq. intros x.
    rewrite elem_of_union, !elem_of_series_ids. split.
    + intros [(s & Hs & <-)|(s & Hs & <-)].
      * apply list_elem_of_filter in Hs as [_ Hs]. eauto.
      * apply list_elem_of_filter in Hs as [_ Hs]. eauto.
    + intros (s & Hs & <-).
      destruct (decide (SeriesItem.id s ∈ series_ids an)) as [Hin|Hout].
      * left. by apply elem_of_series_ids.
      * right. exists s. split; [|done]. by apply list_elem_of_filter.
  - apply set_eq. intros x.
    rewrite elem_of_intersection, elem_of_empty. split; [|done].
    intros [Han Htv]. apply elem_of_series_ids in Htv as (s & Hs & <-).
    apply list_elem_of_filter in Hs as [Hout _]. done.
  - vm_compute. discriminate.
Qed.

Lemma anime_tv_shows_partition_witness :
  let self := mk_library scenario_radarr scenario_sonarr None (Some twin_series) in
  anime self = (self, Return [SeriesItem.mk 7 "A" 0 [] 0 "" 0 1 "anime"])
  ∧ tv_shows self = (self, Return []).
Proof.
  intros self.
  destruct (anime_tv_shows_partition_by_id self twin_series eq_refl)
    as (an & tv & Han & Htv & -> & -> & _).
  split; [exact Han | exact Htv].
Defined.

(** ** sorted(..., reverse=True) *)

Section SortedFacts.
Context {A K : Type} (key : A → K) (lt : K → K → bool).
Hypothesis lt_irrefl : ∀ a, lt a a = false.
Hypothesis lt_trans : ∀ a b c, lt a b = true → lt b c = true → lt a c = true.
Hypothesis lt_incomparable_trans :
  ∀ a b c, lt a b = false → lt b c = false → lt a c = false.

Lemma lt_asym a b : lt a b = true → lt b a = false.
Proof.
  intros Hab. destruct (lt b a) eqn:Hba; [|done].
  by rewrite <- (lt_irrefl a), (lt_trans a b a Hab Hba).
Qed.

Lemma insert_reverse_perm x l : insert_reverse key lt x l ≡ₚ x :: l.
Proof.
  induction l as [|y l IH]; simpl; [done|].
  destruct (lt (key x) (key y)); [|done].
  rewrite IH. apply Permutation_swap.
Qed.

Lemma sorted_reverse_perm l : sorted_reverse key lt l ≡ₚ l.
Proof.
  induction l as [|x l IH]; simpl; [done|].
  by rewrite insert_reverse_perm, IH.
Qed.

Lemma insert_reverse_sorted x l :
  StronglySorted (not_below key lt) l →
  StronglySorted (not_below key lt) (insert_reverse key lt x l).
Proof.
  induction l as [|y l IH]; intros Hs; simpl.
  - apply StronglySorted_cons. split; [constructor | done].
  - apply StronglySorted_cons in Hs as [Hy Hl].
    destruct (lt (key x) (key y)) eqn:Hxy.
    + apply StronglySorted_cons. split; [|by apply IH].
      rewrite insert_reverse_perm. constructor; [|done].
      by apply lt_asym.
    + apply StronglySorted_cons. split.
      * constructor; [done|].
        eapply Forall_impl; [exact Hy|]. intros z Hz.
        by apply (lt_incomparable_trans _ (key y)).
      * by apply StronglySorted_cons.
Qed.

Lemma sorted_reverse_sorted l :
  StronglySorted (not_below key lt) (sorted_reverse key lt l).
Proof.
  induction l as [|x l IH]; simpl; [constructor|].
  by apply insert_reverse_sorted.
Qed.

Lemma insert_reverse_stable k x l :
  filter (same_key key lt k) (insert_reverse key lt x l)
  = filter (same_key key lt k) (x :: l).
Proof.
  induction l as [|y l IH]; simpl; [done|].
  destruct (lt (key x) (key y)) eqn:Hxy; [|done].
  rewrite (filter_cons _ y), IH, !(filter_cons _ x), (filter_cons _ y).
  destruct (decide (same_key key lt k y)) as [[Hy1 Hy2]|]; [|done].
  destruct (decide (same_key key lt k x)) as [[Hx1 Hx2]|]; [|done].
  by rewrite (lt_incomparable_trans _ k _ Hx2 Hy1) in Hxy.
Qed.

(** Stability: the items of one key are in the order of the input. *)
Lemma sorted_reverse_stable k l :
  filter (same_key key lt k) (sorted_reverse key lt l) = filter (same_key key lt k) l.
Proof.
  induction l as [|x l IH]; simpl; [done|].
  by rewrite insert_reverse_stable, !(filter_cons _ x), IH.
Qed.

Lemma sorted_lookup_not_below l i j x y :
  StronglySorted (not_below key lt) l →
  l !! i = Some x → l !! j = Some y → (i < j)%nat → not_below key lt x y.
Proof.
  intros Hs. revert i j. induction Hs as [|z l Hs IH Hz]; intros i j Hi Hj Hlt.
  - by rewrite lookup_nil in Hi.
  - destruct j as [|j]; [lia|]. simpl in Hj. destruct i as [|i].
    + simpl in Hi. injection Hi as ->.
      rewrite Forall_forall in Hz. apply Hz.
      by eapply list_elem_of_lookup_2.
    + simpl in Hi. apply (IH i j); [done|done|lia].
Qed.
End SortedFacts.

(** The comparison of ratings and of counts. *)
Lemma Qlt_bool_true a b : Qlt_bool a b = true ↔ (a < b)%Q.
Proof.
  unfold Qlt_bool. rewrite negb_true_iff, <- not_true_iff_false, Qle_bool_iff.
  split; [apply Qnot_le_lt | apply Qlt_not_le].
Qed.

Lemma Qlt_bool_false a b : Qlt_bool a b = false ↔ (b <= a)%Q.
Proof. unfold Qlt_bool. by rewrite negb_false_iff, Qle_bool_iff. Qed.

Lemma Qlt_bool_irrefl a : Qlt_bool a a = false.
Proof. apply Qlt_bool_false, Qle_refl. Qed.

Lemma Qlt_bool_trans a b c :
  Qlt_bool a b = true → Qlt_bool b c = true → Qlt_bool a c = true.
Proof. rewrite !Qlt_bool_true. apply Qlt_trans. Qed.

Lemma Qlt_bool_incomparable_trans a b c :
  Qlt_bool a b = false → Qlt_bool b c = false → Qlt_bool a c = false.
Proof. rewrite !Qlt_bool_false. intros H1 H2. by apply (Qle_trans _ b). Qed.

Lemma Zltb_incomparable_trans a b c :
  (a <? b) = false → (b <? c) = false → (a <? c) = false.
Proof. rewrite !Z.ltb_ge. lia. Qed.

Lemma Zltb_trans a b c : (a <? b) = true → (b <? c) = true → (a <? c) = true.
Proof. rewrite !Z.ltb_lt. lia. Qed.

(** [r or 0] is [r] as a number. *)
Lemma or_0_eq r : (or_0 r == r)%Q.
Proof.
  unfold or_0, truthy. destruct (Qeq_bool r 0) eqn:E; simpl; [|reflexivity].
  apply Qeq_bool_iff in E. by symmetry.
Qed.

Lemma same_key_rating {A} (rating : A → Q) (r : Q) (x : A) :
  same_key (λ x, or_0 (rating x)) Qlt_bool r x ↔ (rating x == r)%Q.
Proof.
  unfold same_key. rewrite !Qlt_bool_false, !or_0_eq. split.
  - intros [H1 H2]. by apply Qle_antisym.
  - intros ->. split; apply Qle_refl.
Qed.

(** ** The summary document on a populated library *)

Lemma movies_inv self self' ms :
  movies self = (self', Return ms) →
  _movies self' = Some ms ∧ _series self' = _series self.
Proof.
  unfold movies. destruct (_movies self) as [l|] eqn:Hc.
  - intros [= <- <-]. done.
  - destruct (get_movies (radarr self)) as [c [l|e]]; intros [= <- <-]; done.
Qed.

Lemma series_inv self self' ss :
  series self = (self', Return ss) →
  _series self' = Some ss ∧ _movies self' = _movies self.
Proof.
  unfold series. destruct (_series self) as [l|] eqn:Hc.
  - intros [= <- <-]. done.
  - destruct (get_series (sonarr self)) as [c [l|e]]; intros [= <- <-]; done.
Qed.

Lemma get_media_summary_lines_cached self ms ss :
  _movies self = Some ms → _series self = Some ss →
  get_media_summary_lines self = (self, Return (summary_lines_of ms ss)).
Proof.
  intros Hm Hs. unfold get_media_summary_lines, bind.
  rewrite !(movies_cached _ _ Hm), !(tv_shows_cached _ _ Hs),
    !(anime_cached _ _ Hs).
  unfold ret, summary_lines_of, movies_table, shows_table, anime_table.
  do 2 f_equal. simpl. by rewrite <- !app_assoc.
Qed.

Lemma get_media_summary_lines_inv self self' lines :
  get_media_summary_lines self = (self', Return lines) →
  ∃ ms ss, _movies self' = Some ms ∧ _series self' = Some ss
           ∧ lines = summary_lines_of ms ss.
Proof.
  intros H.
  destruct (movies self) as [s1 [ms|e]] eqn:E1; cycle 1.
  { unfold get_media_summary_lines, bind in H. by rewrite E1 in H. }
  apply movies_inv in E1 as E1'. destruct E1' as [Hm1 _].
  destruct (series s1) as [s2 [ss|e]] eqn:E2; cycle 1.
  { unfold get_media_summary_lines, bind in H.
    rewrite E1, (movies_cached _ _ Hm1) in H.
    unfold tv_shows, anime, bind in H. by rewrite E2 in H. }
  apply series_inv in E2 as E2'. destruct E2' as [Hs2 Hm2].
  rewrite Hm1 in Hm2.
  assert (get_media_summary_lines self = get_media_summary_lines s2) as Heq.
  { rewrite (get_media_summary_lines_cached _ _ _ Hm2 Hs2).
    unfold get_media_summary_lines, bind.
    rewrite E1, (movies_cached _ _ Hm1).
    unfold tv_shows at 1. unfold anime at 1. unfold bind. rewrite E2.
    unfold ret at 1. rewrite (series_cached _ _ Hs2).
    unfold ret at 1.
    rewrite !(tv_shows_cached _ _ Hs2), !(anime_cached _ _ Hs2).
    unfold ret, summary_lines_of, movies_table, shows_table, anime_table.
    do 2 f_equal. simpl. by rewrite <- !app_assoc. }
  rewrite Heq, (get_media_summary_lines_cached _ _ _ Hm2 Hs2) in H.
  injection H as <- <-. eauto.
Qed.

Lemma get_media_summary_cached self ms ss :
  _movies self = Some ms → _series self = Some ss →
  get_media_summary self = (self, Return (join newline (summary_lines_of ms ss))).
Proof.
  intros Hm Hs. unfold get_media_summary, bind.
  by rewrite (get_media_summary_lines_cached _ _ _ Hm Hs).
Qed.

Lemma get_media_summary_inv self self' doc :
  get_media_summary self = (self', Return doc) →
  ∃ ms ss, _movies self' = Some ms ∧ _series self' = Some ss
           ∧ doc = join newline (summary_lines_of ms ss).
Proof.
  unfold get_media_summary, bind.
  destruct (get_media_summary_lines self) as [s1 [lines|e]] eqn:E; [|done].
  intros [= <- <-].
  apply get_media_summary_lines_inv in E as (ms & ss & ? & ? & ->). eauto.
Qed.

Lemma filter_take_prefix {A} (P : A → Prop) `{!∀ x, Decision (P x)} n (l : list A) :
  filter P (take n l) `prefix_of` filter P l.
Proof.
  rewrite <- (take_drop n l) at 2. rewrite filter_app. by apply prefix_app_r.
Qed.

Lemma sorted_movies_perm ms : sorted_movies ms ≡ₚ ms.
Proof. apply sorted_reverse_perm. Qed.

Lemma sorted_movies_not_below ms :
  StronglySorted (not_below movie_key Qlt_bool) (sorted_movies ms).
Proof.
  apply sorted_reverse_sorted.
  - apply Qlt_bool_irrefl.
  - apply Qlt_bool_trans.
  - apply Qlt_bool_incomparable_trans.
Qed.

Lemma sorted_movies_stable r ms :
  filter (λ m, MovieItem.imdb_rating m == r)%Q (sorted_movies ms)
  = filter (λ m, MovieItem.imdb_rating m == r)%Q ms.
Proof.
  rewrite <- !(list_filter_iff (same_key movie_key Qlt_bool r)
                 (λ m, MovieItem.imdb_rating m == r)%Q)
    by (intros m; apply (same_key_rating MovieItem.imdb_rating)).
  apply sorted_reverse_stable, Qlt_bool_incomparable_trans.
Qed.

(** C5. A call of [get_media_summary()] on a library whose caches are
    populated returns the document; and whenever a call returns a document,
    its Movies table renders [rows], the first 100 items of the cached movie
    list [ms] sorted: at most 100 rows (exactly [min 100 (length ms)]),
    drawn from [ms], non-increasing in imdb rating from top to bottom, so
    that, ratings being non-negative, a zero (or missing, read as 0.0)
    rating is followed by zero ratings only; and among the movies of any
    one rating the rows keep the order of [ms]. *)
Theorem movies_table_top_100_by_rating (self : MediaLibrary) :
  (∀ ms ss, _movies self = Some ms → _series self = Some ss →
     get_media_summary self
     = (self, Return (join newline (summary_lines_of ms ss))))
  ∧ (∀ self' doc, get_media_summary self = (self', Return doc) →
     ∃ ms ss rows,
       _movies self' = Some ms ∧ _series self' = Some ss
       ∧ doc = join newline (summary_lines_of ms ss)
       ∧ movies_table ms
         = ["## Movies";
            "| Title | Year | Genres | Rating | Runtime |";
            "|-------|------|--------|--------|---------|"]
           ++ (movie_row <$> rows) ++ [total_line "movies" (length ms)]
       ∧ rows = take 100 (sorted_movies ms)
       ∧ sorted_movies ms ≡ₚ ms
       ∧ length rows = (100 `min` length ms)%nat
       ∧ (length rows ≤ 100)%nat
       ∧ (∀ i j m1 m2, rows !! i = Some m1 → rows !! j = Some m2 → (i < j)%nat →
            (MovieItem.imdb_rating m2 <= MovieItem.imdb_rating m1)%Q)
       ∧ (Forall (λ m, 0 <= MovieItem.imdb_rating m)%Q ms →
          ∀ i j m1 m2, rows !! i = Some m1 → rows !! j = Some m2 → (i < j)%nat →
            (MovieItem.imdb_rating m1 == 0)%Q → (MovieItem.imdb_rating m2 == 0)%Q)
       ∧ (∀ r, filter (λ m, MovieItem.imdb_rating m == r)%Q rows
               `prefix_of` filter (λ m, MovieItem.imdb_rating m == r)%Q ms)).
Proof.
  split; [intros ms ss; apply get_media_summary_cached|].
  intros self' doc H.
  apply get_media_summary_inv in H as (ms & ss & Hm & Hs & ->).
  exists ms, ss, (take 100 (sorted_movies ms)).
  assert (Hdesc : ∀ i j m1 m2,
    take 100 (sorted_movies ms) !! i = Some m1 →
    take 100 (sorted_movies ms) !! j = Some m2 → (i < j)%nat →
    (MovieItem.imdb_rating m2 <= MovieItem.imdb_rating m1)%Q).
  { intros i j m1 m2 Hi Hj Hlt.
    apply lookup_take_Some in Hi as [Hi _]. apply lookup_take_Some in Hj as [Hj _].
    pose proof (sorted_lookup_not_below _ _ _ _ _ _ _
                  (sorted_movies_not_below ms) Hi Hj Hlt) as Hnb.
    unfold not_below, movie_key in Hnb. apply Qlt_bool_false in Hnb.
    by rewrite !or_0_eq in Hnb. }
  repeat split; try done.
  - apply sorted_movies_perm.
  - by rewrite length_take, (Permutation_length (sorted_movies_perm ms)).
  - rewrite length_take. lia.
  - intros Hnonneg i j m1 m2 Hi Hj Hlt Hzero.
    apply Qle_antisym.
    + rewrite <- Hzero. by apply (Hdesc i j).
    + rewrite Forall_forall in Hnonneg. apply Hnonneg.
      apply lookup_take_Some in Hj as [Hj _].
      apply list_elem_of_lookup_2 in Hj.
      by rewrite <- (sorted_movies_perm ms).
  - intros r. rewrite <- (sorted_movies_stable r ms).
    apply filter_take_prefix.
Qed.

Lemma movies_table_witness :
  let self := mk_library scenario_radarr scenario_sonarr (Some ranked_movies) (Some []) in
  ∃ doc rows,
    get_media_summary self = (self, Return doc)
    ∧ rows = take 100 (sorted_movies ranked_movies)
    ∧ (length rows ≤ 100)%nat
    ∧ (∀ m1 m2, rows !! 2%nat = Some m1 → rows !! 3%nat = Some m2 →
         (MovieItem.imdb_rating m2 <= MovieItem.imdb_rating m1)%Q)
    ∧ (∀ m1 m2, rows !! 3%nat = Some m1 → rows !! 4%nat = Some m2 →
         (MovieItem.imdb_rating m1 == 0)%Q → (MovieItem.imdb_rating m2 == 0)%Q)
    ∧ filter (λ m, MovieItem.imdb_rating m == 7)%Q rows
      `prefix_of` filter (λ m, MovieItem.imdb_rating m == 7)%Q ranked_movies.
Proof.
  intros self.
  destruct (movies_table_top_100_by_rating self) as [Hret Hrows].
  specialize (Hret ranked_movies [] eq_refl eq_refl).
  destruct (Hrows _ _ Hret)
    as (ms & ss & rows & Hm & _ & _ & _ & -> & _ & _ & Hle & Hdesc & Hzero & Hstable).
  injection Hm as <-.
  eexists _, _. split; [exact Hret|]. split; [reflexivity|].
  split; [exact Hle|]. split; [|split].
  - intros m1 m2 H1 H2. apply (Hdesc 2%nat 3%nat); [done|done|lia].
  - intros m1 m2 H1 H2. apply (Hzero ltac:(repeat constructor; done) 3%nat 4%nat);
      [done|done|lia].
  - apply Hstable.
Defined.

(** ** The genres column of the Anime table *)

Lemma join_empty sep l : Forall (λ g, g ≠ "") l → join sep l = "" → l = [].
Proof.
  destruct l as [|x [|y l]]; [done| |].
  - intros Hne%Forall_inv. simpl. done.
  - intros Hne%Forall_inv. simpl. destruct x; [done | discriminate].
Qed.

Lemma filter_take_short {A} (P : A → Prop) `{!∀ x, Decision (P x)} n (l : list A) :
  (length l ≤ n)%nat → filter P (take n l) = take n (filter P l).
Proof.
  intros Hlen. rewrite take_ge by done.
  rewrite take_ge; [done|]. pose proof (length_filter P l). lia.
Qed.

Lemma filter_take_all {A} (P : A → Prop) `{!∀ x, Decision (P x)} n (l : list A) :
  Forall P (take n l) → filter P (take n l) = take n (filter P l).
Proof.
  intros Hall. destruct (decide (length l ≤ n)%nat) as [Hle|Hgt].
  { by apply filter_take_short. }
  assert (filter P (take n l) = take n l) as Hid.
  { clear Hgt. induction (take n l) as [|x k IH]; [done|].
    apply Forall_cons in Hall as [Hx Hk].
    rewrite filter_cons_True by done. by rewrite IH. }
  rewrite Hid. rewrite <- (take_drop n l) at 2. rewrite filter_app, Hid.
  rewrite take_app_length'; [done|]. rewrite length_take. lia.
Qed.

(** C1, as stated, fails: the row of [four_genre_anime] shows two genres
    where excluding "anime" before truncating would show three. *)
Lemma anime_genres_excluded_after_truncation :
  (get_media_summary
     (mk_library scenario_radarr scenario_sonarr (Some []) (Some [four_genre_anime]))).2
  = Return (join newline
      (["# Available Media Library" +:+ newline]
       ++ movies_table [] ++ shows_table []
       ++ ["## Anime";
           "| Title | Year | Genres | Rating | Episodes |";
           "|-------|------|--------|--------|----------|";
           "| Show X | 0 | Action, Drama | - | 12 |";
           total_line "anime" 1]))
  ∧ anime_genres_cell (SeriesItem.genres four_genre_anime) = "Action, Drama"
  ∧ spec_anime_genres_cell (SeriesItem.genres four_genre_anime)
    = "Action, Drama, Comedy"
  ∧ anime_genres_cell (SeriesItem.genres four_genre_anime)
    ≠ spec_anime_genres_cell (SeriesItem.genres four_genre_anime).
Proof. split; [|split; [|split]]; vm_compute; done. Qed.

(** C1 (amended). A call of [get_media_summary()] on a populated library
    returns the document; and whenever a call returns a document, its Anime
    table renders [rows], the first 50 anime series by rating, and the row
    of each shows in its genres column the first 3 genres of the series
    with the "anime" token (compared in lower case) removed from those
    three, joined by ", ", or "-" when the joined text is empty, as it is
    when none of the three remains. The truncation comes before the
    exclusion; the two orders give the same cell when genre names are
    non-empty and either the series has at most 3 genres or none of its
    first 3 is the "anime" token. *)
Theorem anime_table_genres_column (self : MediaLibrary) :
  (∀ ms ss, _movies self = Some ms → _series self = Some ss →
     get_media_summary self
     = (self, Return (join newline (summary_lines_of ms ss))))
  ∧ (∀ self' doc, get_media_summary self = (self', Return doc) →
     ∃ ms ss rows,
       _movies self' = Some ms ∧ _series self' = Some ss
       ∧ doc = join newline (summary_lines_of ms ss)
       ∧ anime_table (anime_of ss)
         = ["## Anime";
            "| Title | Year | Genres | Rating | Episodes |";
            "|-------|------|--------|--------|----------|"]
           ++ (anime_row <$> rows) ++ [total_line "anime" (length (anime_of ss))]
       ∧ rows = take 50 (sorted_series (anime_of ss))
       ∧ ∀ a, a ∈ rows →
           let genres := SeriesItem.genres a in
           let kept := filter (λ g, lower g ≠ "anime") (take 3 genres) in
           ∃ cell,
             anime_row a
             = table_row (SeriesItem.title a) (pretty (SeriesItem.year a)) cell
                 (rating_cell (SeriesItem.rating a))
                 (pretty (SeriesItem.episode_count a))
             ∧ cell = (if decide (join ", " kept = "") then "-" else join ", " kept)
             ∧ (kept = [] → cell = "-")
             ∧ (Forall (λ g, g ≠ "") genres →
                (length genres ≤ 3)%nat
                ∨ Forall (λ g, lower g ≠ "anime") (take 3 genres) →
                cell = spec_anime_genres_cell genres)).
Proof.
  split; [intros ms ss; apply get_media_summary_cached|].
  intros self' doc H.
  apply get_media_summary_inv in H as (ms & ss & Hm & Hs & ->).
  exists ms, ss, (take 50 (sorted_series (anime_of ss))).
  do 5 (split; [done|]).
  intros a _ genres kept. exists (anime_genres_cell genres).
  split; [done|].
  assert (anime_genres_cell genres
          = if decide (join ", " kept = "") then "-" else join ", " kept) as ->.
  { unfold anime_genres_cell. cbv zeta. fold kept.
    destruct (decide (join ", " kept = "")) as [Hj|Hj];
      [by rewrite bool_decide_eq_true_2 | by rewrite bool_decide_eq_false_2]. }
  split; [done|]. split; [by intros ->|].
  intros Hne Hcase. unfold spec_anime_genres_cell.
  assert (take 3 (filter (λ g, lower g ≠ "anime") genres) = kept) as ->.
  { symmetry. destruct Hcase; [by apply filter_take_short | by apply filter_take_all]. }
  assert (Forall (λ g, g ≠ "") kept) as Hkept.
  { apply Forall_forall. intros g Hg.
    apply list_elem_of_filter in Hg as [_ Hg].
    rewrite Forall_forall in Hne. apply Hne.
    by apply (subseteq_take 3). }
  destruct (decide (join ", " kept = "")) as [Hj|Hj].
  - by rewrite (join_empty _ _ Hkept Hj).
  - destruct kept; [done|done].
Qed.

Lemma anime_table_genres_column_witness :
  let a := SeriesItem.mk 9 "Show Z" 0 ["Action"; "Anime"; "Drama"] 0 "" 0 3 "anime" in
  let self :=
    mk_library scenario_radarr scenario_sonarr (Some []) (Some [four_genre_anime; a]) in
  ∃ doc cell,
    get_media_summary self = (self, Return doc)
    ∧ anime_row four_genre_anime = table_row "Show X" "0" cell "-" "12"
    ∧ cell = "Action, Drama"
    ∧ anime_genres_cell (SeriesItem.genres a)
      = spec_anime_genres_cell (SeriesItem.genres a).
Proof.
  intros a self.
  destruct (anime_table_genres_column self) as [Hret Hrows].
  specialize (Hret [] [four_genre_anime; a] eq_refl eq_refl).
  destruct (Hrows _ _ Hret) as (ms & ss & rows & _ & Hs & _ & _ & -> & Hcell).
  injection Hs as <-.
  destruct (Hcell four_genre_anime ltac:(vm_compute; set_solver))
    as (cell & Hrow & -> & _).
  destruct (Hcell a ltac:(vm_compute; set_solver)) as (cell & _ & Hc & _ & Hagree).
  eexists _, _. split; [exact Hret|]. split; [exact Hrow|]. split; [reflexivity|].
  rewrite <- (Hagree ltac:(repeat constructor; done) ltac:(left; simpl; lia)).
  rewrite Hc. reflexivity.
Defined.

(** ** Genre statistics *)

Lemma dict_set_keys d k v : (dict_set d k v).*1 = note_seen d.*1 k.
Proof.
  induction d as [|[k' v'] d IH]; [done|].
  cbn [dict_set]. unfold note_seen. rewrite (fmap_cons fst). cbn [fst].
  destruct (decide (k' = k)) as [->|Hne].
  - rewrite bool_decide_eq_true_2 by done. rewrite (fmap_cons fst). cbn [fst].
    rewrite decide_True; [done | set_solver].
  - rewrite bool_decide_eq_false_2 by done. rewrite (fmap_cons fst), IH.
    cbn [fst]. unfold note_seen.
    destruct (decide (k ∈ d.*1)) as [Hin|Hout].
    + rewrite decide_True; [done | set_solver].
    + rewrite decide_False; [done | set_solver].
Qed.

Lemma dict_get_set d k v k' dflt :
  dict_get (dict_set d k v) k' dflt
  = if decide (k = k') then v else dict_get d k' dflt.
Proof.
  induction d as [|[k0 v0] d IH]; simpl.
  - destruct (decide (k = k')); [by rewrite bool_decide_eq_true_2
                                | by rewrite bool_decide_eq_false_2].
  - destruct (decide (k0 = k)) as [->|Hne].
    + rewrite bool_decide_eq_true_2 by done. simpl.
      destruct (decide (k = k')); [by rewrite bool_decide_eq_true_2
                                  | by rewrite !bool_decide_eq_false_2].
    + rewrite (bool_decide_eq_false_2 (k0 = k)) by done. simpl.
      destruct (decide (k0 = k')) as [->|Hne'].
      * rewrite bool_decide_eq_true_2 by done. by rewrite decide_False.
      * rewrite bool_decide_eq_false_2 by done. exact IH.
Qed.

Lemma dict_set_fresh d k v : k ∉ d.*1 → dict_set d k v = d ++ [(k, v)].
Proof.
  induction d as [|[k' v'] d IH]; simpl; [done|].
  intros Hout. rewrite bool_decide_eq_false_2 by set_solver.
  rewrite IH; [done | set_solver].
Qed.

Lemma total_dict_set d k :
  total (dict_set d k (dict_get d k 0 + 1)) = total d + 1.
Proof.
  induction d as [|[k' v'] d IH]; simpl; [lia|].
  destruct (decide (k' = k)) as [->|Hne].
  - rewrite !bool_decide_eq_true_2 by done. simpl. lia.
  - rewrite !bool_decide_eq_false_2 by done. simpl. rewrite IH. lia.
Qed.

Lemma total_perm d1 d2 : d1 ≡ₚ d2 → total d1 = total d2.
Proof. induction 1; simpl; lia. Qed.

Lemma count_genres_app d l1 l2 :
  count_genres d (l1 ++ l2) = count_genres (count_genres d l1) l2.
Proof. apply foldl_app. Qed.

Lemma count_genres_keys d l : (count_genres d l).*1 = foldl note_seen d.*1 l.
Proof.
  revert d. induction l as [|g l IH]; intros d; [done|].
  simpl. unfold count_genres in IH. by rewrite IH, dict_set_keys.
Qed.

Lemma count_genres_get d l g :
  dict_get (count_genres d l) g 0 = dict_get d g 0 + occurrences g l.
Proof.
  revert d. induction l as [|x l IH]; intros d.
  - unfold occurrences. simpl. lia.
  - simpl. unfold count_genres in IH. rewrite IH, dict_get_set.
    unfold occurrences. rewrite (filter_cons _ x).
    destruct (decide (x = g)) as [->|Hne]; simpl; lia.
Qed.

Lemma count_genres_total d l :
  total (count_genres d l) = total d + Z.of_nat (length l).
Proof.
  revert d. induction l as [|x l IH]; intros d; simpl; [lia|].
  unfold count_genres in IH. rewrite IH, total_dict_set. lia.
Qed.

Lemma note_seen_NoDup seen l : NoDup seen → NoDup (foldl note_seen seen l).
Proof.
  revert seen. induction l as [|g l IH]; intros seen Hnd; [done|].
  simpl. apply IH. unfold note_seen. destruct (decide (g ∈ seen)); [done|].
  apply NoDup_app. split; [done|]. split; [set_solver|].
  apply NoDup_singleton.
Qed.

(** A dictionary is its keys, each with the value stored under it. *)
Lemma dict_by_keys (d : dict) :
  NoDup d.*1 → d = (λ g, (g, dict_get d g 0)) <$> d.*1.
Proof.
  induction d as [|[k v] d IH]; [done|].
  intros [Hk Hd]%NoDup_cons. simpl.
  rewrite bool_decide_eq_true_2 by done. f_equal.
  rewrite (IH Hd) at 1. apply list_fmap_ext. intros i g Hg.
  rewrite bool_decide_eq_false_2; [done|].
  intros ->. apply Hk. by eapply list_elem_of_lookup_2.
Qed.

Lemma dict_of_items_app acc items :
  NoDup (acc ++ items).*1 →
  foldl (λ d kv, dict_set d kv.1 kv.2) acc items = acc ++ items.
Proof.
  revert acc. induction items as [|[k v] items IH]; intros acc Hnd; simpl.
  - by rewrite app_nil_r.
  - rewrite dict_set_fresh.
    + rewrite IH; rewrite <- app_assoc; done.
    + rewrite fmap_app in Hnd. apply NoDup_app in Hnd as (_ & Hout & _).
      intros Hin. apply (Hout k Hin). set_solver.
Qed.

Lemma dict_of_items_id items : NoDup items.*1 → dict_of_items items = items.
Proof. intros Hnd. by apply (dict_of_items_app []). Qed.

Lemma first_index_lt g l : g ∈ l → (first_index g l < length l)%nat.
Proof.
  induction l as [|x l IH]; [set_solver|].
  intros Hin. simpl. destruct (decide (x = g)); [lia|].
  apply elem_of_cons in Hin as [->|Hin]; [done|].
  specialize (IH Hin). lia.
Qed.

Lemma first_index_app_l g l k : g ∈ l → first_index g (l ++ k) = first_index g l.
Proof.
  induction l as [|x l IH]; [set_solver|].
  intros Hin. simpl. destruct (decide (x = g)); [done|].
  apply elem_of_cons in Hin as [->|Hin]; [done|]. by rewrite IH.
Qed.

Lemma first_index_app_r g l : g ∉ l → first_index g (l ++ [g]) = length l.
Proof.
  induction l as [|x l IH]; intros Hout; simpl.
  - by rewrite decide_True.
  - rewrite decide_False by set_solver. rewrite IH; [done | set_solver].
Qed.

Lemma first_seen_snoc l g : first_seen (l ++ [g]) = note_seen (first_seen l) g.
Proof. unfold first_seen. by rewrite foldl_app. Qed.

Lemma elem_of_first_seen g l : g ∈ first_seen l ↔ g ∈ l.
Proof.
  induction l as [|x l IH] using rev_ind; [done|].
  rewrite first_seen_snoc. unfold note_seen.
  destruct (decide (x ∈ first_seen l)) as [Hin|Hout]; set_solver.
Qed.

(** [first_seen l] lists the elements of [l] by first occurrence. *)
Lemma first_seen_order l i j g1 g2 :
  first_seen l !! i = Some g1 → first_seen l !! j = Some g2 → (i < j)%nat →
  (first_index g1 l < first_index g2 l)%nat.
Proof.
  revert i j g1 g2. induction l as [|x l IH] using rev_ind; intros i j g1 g2.
  { cbn. by rewrite lookup_nil. }
  rewrite first_seen_snoc. unfold note_seen.
  destruct (decide (x ∈ first_seen l)) as [Hin|Hout]; intros Hi Hj Hlt.
  - rewrite !first_index_app_l; [by apply (IH i j) | |].
    + apply elem_of_first_seen. by eapply list_elem_of_lookup_2.
    + apply elem_of_first_seen. by eapply list_elem_of_lookup_2.
  - assert (g1 ∈ l) as H1.
    { apply elem_of_first_seen. rewrite lookup_app_l in Hi.
      - by eapply list_elem_of_lookup_2.
      - apply lookup_lt_Some in Hj. rewrite length_app in Hj. simpl in Hj. lia. }
    rewrite (first_index_app_l g1) by done.
    destruct (decide (j < length (first_seen l))%nat) as [Hj'|Hj'].
    + rewrite lookup_app_l in Hi by lia. rewrite lookup_app_l in Hj by lia.
      rewrite first_index_app_l; [by apply (IH i j)|].
      apply elem_of_first_seen. by eapply list_elem_of_lookup_2.
    + rewrite lookup_app_r in Hj by lia.
      apply list_lookup_singleton_Some in Hj as [_ <-].
      rewrite first_index_app_r; [by apply first_index_lt|].
      by rewrite <- elem_of_first_seen.
Qed.

(** Two elements satisfying [P] stand in a list in the order they have in
    its filter. *)
Lemma filter_lookup_order {A} (P : A → Prop) `{!∀ x, Decision (P x)}
    (l : list A) i j x y :
  l !! i = Some x → l !! j = Some y → (i < j)%nat → P x → P y →
  ∃ a b, filter P l !! a = Some x ∧ filter P l !! b = Some y ∧ (a < b)%nat.
Proof.
  revert i j. induction l as [|z l IH]; intros i j Hi Hj Hlt Hx Hy.
  { by rewrite lookup_nil in Hi. }
  destruct j as [|j]; [lia|]. simpl in Hj. destruct i as [|i].
  - simpl in Hi. injection Hi as ->. rewrite filter_cons_True by done.
    assert (y ∈ filter P l) as Hin.
    { apply list_elem_of_filter. split; [done|]. by eapply list_elem_of_lookup_2. }
    apply list_elem_of_lookup in Hin as [b Hb].
    exists 0%nat, (S b). repeat split; [done | lia].
  - simpl in Hi.
    destruct (IH i j Hi Hj ltac:(lia) Hx Hy) as (a & b & Ha & Hb & Hab).
    destruct (decide (P z)).
    + rewrite filter_cons_True by done.
      exists (S a), (S b). repeat split; [done | done | lia].
    + rewrite filter_cons_False by done. eauto.
Qed.

Lemma lookup_filter_order {A} (P : A → Prop) `{!∀ x, Decision (P x)}
    (l : list A) a b x y :
  filter P l !! a = Some x → filter P l !! b = Some y → (a < b)%nat →
  ∃ i j, l !! i = Some x ∧ l !! j = Some y ∧ (i < j)%nat.
Proof.
  revert a b. induction l as [|z l IH]; intros a b Ha Hb Hlt.
  { by rewrite filter_nil, lookup_nil in Ha. }
  destruct (decide (P z)) as [Hz|Hz].
  - rewrite filter_cons_True in Ha, Hb by done.
    destruct b as [|b]; [lia|]. simpl in Hb. destruct a as [|a].
    + simpl in Ha. injection Ha as ->.
      assert (y ∈ l) as Hin.
      { apply list_elem_of_lookup_2 in Hb.
        by apply list_elem_of_filter in Hb as [_ ?]. }
      apply list_elem_of_lookup in Hin as [j Hj].
      exists 0%nat, (S j). repeat split; [done | lia].
    + simpl in Ha. destruct (IH a b Ha Hb ltac:(lia)) as (i & j & ? & ? & ?).
      exists (S i), (S j). repeat split; [done | done | lia].
  - rewrite filter_cons_False in Ha, Hb by done.
    destruct (IH a b Ha Hb Hlt) as (i & j & ? & ? & ?).
    exists (S i), (S j). repeat split; [done | done | lia].
Qed.

Lemma foldl_count_genres {A} (f : A → list string) (d : dict) (l : list A) :
  foldl (λ d x, count_genres d (f x)) d l = count_genres d (l ≫= f).
Proof.
  revert d. induction l as [|x l IH]; intros d; [done|].
  rewrite bind_cons, count_genres_app. cbn [foldl]. apply IH.
Qed.

Lemma genre_counts_of_all ms ss :
  genre_counts_of ms ss = count_genres [] (all_genres ms ss).
Proof.
  unfold genre_counts_of, all_genres.
  by rewrite !foldl_count_genres, count_genres_app.
Qed.

(** The dictionary before sorting: the genres by first occurrence, each
    with its number of occurrences. *)
Lemma genre_counts_of_first_seen ms ss :
  genre_counts_of ms ss
  = (λ g, (g, occurrences g (all_genres ms ss))) <$> first_seen (all_genres ms ss).
Proof.
  rewrite genre_counts_of_all. set (all := all_genres ms ss).
  assert ((count_genres [] all).*1 = first_seen all) as Hkeys.
  { by rewrite count_genres_keys. }
  rewrite (dict_by_keys (count_genres [] all)) at 1.
  - rewrite Hkeys. apply list_fmap_ext. intros i g _.
    by rewrite count_genres_get.
  - rewrite Hkeys. apply note_seen_NoDup, NoDup_nil_2.
Qed.

Lemma length_bind_sum {A B} (f : A → list B) (l : list A) :
  length (l ≫= f) = sum_list_with (λ x, length (f x)) l.
Proof.
  induction l as [|x l IH]; [done|].
  rewrite bind_cons, length_app, IH. done.
Qed.

Lemma get_genre_stats_cached self ms ss :
  _movies self = Some ms → _series self = Some ss →
  get_genre_stats self = (self, Return (genre_stats_of ms ss)).
Proof.
  intros Hm Hs. unfold get_genre_stats, bind.
  by rewrite (movies_cached _ _ Hm), (series_cached _ _ Hs).
Qed.

Lemma get_genre_stats_inv self self' stats :
  get_genre_stats self = (self', Return stats) →
  ∃ ms ss, _movies self' = Some ms ∧ _series self' = Some ss
           ∧ stats = genre_stats_of ms ss.
Proof.
  unfold get_genre_stats, bind.
  destruct (movies self) as [s1 [ms|e]] eqn:E1; [|done].
  destruct (series s1) as [s2 [ss|e]] eqn:E2; [|done].
  intros [= <- <-].
  apply movies_inv in E1 as [Hm1 _]. apply series_inv in E2 as [Hs2 Hm2].
  exists ms, ss. split; [congruence|]. done.
Qed.

Lemma genre_stats_of_sorted ms ss :
  genre_stats_of ms ss = sorted_reverse snd Z.ltb (genre_counts_of ms ss).
Proof.
  unfold genre_stats_of. apply dict_of_items_id.
  rewrite (sorted_reverse_perm snd Z.ltb (genre_counts_of ms ss)).
  rewrite genre_counts_of_all, count_genres_keys.
  apply note_seen_NoDup, NoDup_nil_2.
Qed.

(** C6. A call of [get_genre_stats()] on a populated library returns; and
    whenever a call returns the mapping [stats], with [all] the genre
    occurrences of the cached movies followed by those of the cached
    series: [stats] holds each genre of [all] once, with its number of
    occurrences; counts never increase along [stats]; the counts add up to
    the length of [all], which is the number of (item, genre) pairs; and of
    two genres with the same count, the one [stats] lists first occurs
    first in [all]. *)
Theorem genre_stats_sorted_by_count (self : MediaLibrary) :
  (∀ ms ss, _movies self = Some ms → _series self = Some ss →
     get_genre_stats self = (self, Return (genre_stats_of ms ss)))
  ∧ (∀ self' stats, get_genre_stats self = (self', Return stats) →
     ∃ ms ss,
       _movies self' = Some ms ∧ _series self' = Some ss
       ∧ let all := all_genres ms ss in
         NoDup stats.*1
         ∧ (∀ g c, (g, c) ∈ stats ↔ g ∈ all ∧ c = occurrences g all)
         ∧ (∀ i j kv1 kv2, stats !! i = Some kv1 → stats !! j = Some kv2 →
              (i < j)%nat → kv2.2 ≤ kv1.2)
         ∧ total stats = Z.of_nat (length all)
         ∧ length all
           = (sum_list_with (λ m, length (MovieItem.genres m)) ms
              + sum_list_with (λ s, length (SeriesItem.genres s)) ss)%nat
         ∧ (∀ i j g1 g2 c, stats !! i = Some (g1, c) → stats !! j = Some (g2, c) →
              (i < j)%nat → (first_index g1 all < first_index g2 all)%nat)).
Proof.
  split; [intros ms ss; apply get_genre_stats_cached|].
  intros self' stats H.
  apply get_genre_stats_inv in H as (ms & ss & Hm & Hs & ->).
  exists ms, ss. split; [done|]. split; [done|]. intros all.
  rewrite genre_stats_of_sorted.
  pose proof (sorted_reverse_perm snd Z.ltb (genre_counts_of ms ss)) as Hperm.
  pose proof (genre_counts_of_first_seen ms ss) as Hgc. fold all in Hgc.
  set (stats := sorted_reverse snd Z.ltb (genre_counts_of ms ss)) in *.
  split; [|split; [|split; [|split; [|split]]]].
  - rewrite Hperm, genre_counts_of_all, count_genres_keys.
    apply note_seen_NoDup, NoDup_nil_2.
  - intros g c. rewrite Hperm, Hgc, list_elem_of_fmap. split.
    + intros (g' & [= -> ->] & Hin). by rewrite elem_of_first_seen in Hin.
    + intros [Hin ->]. exists g. by rewrite elem_of_first_seen.
  - intros i j kv1 kv2 Hi Hj Hlt.
    pose proof (sorted_lookup_not_below snd Z.ltb stats i j kv1 kv2
                  (sorted_reverse_sorted snd Z.ltb Z.ltb_irrefl Zltb_trans
                     Zltb_incomparable_trans _) Hi Hj Hlt) as Hnb.
    unfold not_below in Hnb. by apply Z.ltb_ge in Hnb.
  - rewrite (total_perm _ _ Hperm), genre_counts_of_all, count_genres_total.
    change (total []) with 0. unfold all. lia.
  - unfold all, all_genres. by rewrite length_app, !length_bind_sum.
  - intros i j g1 g2 c Hi Hj Hlt.
    destruct (filter_lookup_order (same_key snd Z.ltb c) stats i j _ _ Hi Hj Hlt)
      as (a & b & Ha & Hb & Hab).
    { unfold same_key. simpl. by rewrite Z.ltb_irrefl. }
    { unfold same_key. simpl. by rewrite Z.ltb_irrefl. }
    unfold stats in Ha, Hb.
    rewrite (sorted_reverse_stable snd Z.ltb Zltb_incomparable_trans) in Ha, Hb.
    destruct (lookup_filter_order _ _ _ _ _ _ Ha Hb Hab) as (i' & j' & Hi' & Hj' & Hlt').
    rewrite Hgc in Hi', Hj'.
    apply list_lookup_fmap_Some in Hi' as (g1' & [= -> _] & Hg1).
    apply list_lookup_fmap_Some in Hj' as (g2' & [= -> _] & Hg2).
    by apply (first_seen_order all i' j').
Qed.

Lemma genre_stats_witness :
  let self := mk_library scenario_radarr scenario_sonarr
                (Some genre_movies) (Some genre_series) in
  get_genre_stats self
  = (self, Return [("Action", 2); ("Comedy", 2); ("Drama", 1); ("Anime", 1)])
  ∧ total [("Action", 2); ("Comedy", 2); ("Drama", 1); ("Anime", 1)] = 6
  ∧ (first_index "Action" (all_genres genre_movies genre_series)
     < first_index "Comedy" (all_genres genre_movies genre_series))%nat.
Proof.
  intros self.
  destruct (genre_stats_sorted_by_count self) as [Hret Hprops].
  specialize (Hret genre_movies genre_series eq_refl eq_refl).
  destruct (Hprops _ _ Hret) as (ms & ss & Hm & Hs & Hall).
  injection Hm as <-. injection Hs as <-.
  destruct Hall as (_ & _ & _ & Htotal & _ & Hties).
  split; [exact Hret|]. split; [exact Htotal|].
  apply (Hties 0%nat 1%nat "Action" "Comedy" 2); [reflexivity | reflexivity | lia].
Defined.

(** ** Theme search *)

Lemma startswith_spec p s : startswith p s = true ↔ ∃ post, s = p +:+ post.
Proof.
  revert s. induction p as [|a p IH]; intros s; simpl.
  - split; [eauto | done].
  - destruct s as [|b s].
    + split; [done | intros [post ?]; done].
    + rewrite andb_true_iff, bool_decide_eq_true, IH. split.
      * intros [-> [post ->]]. eauto.
      * intros [post [= -> ->]]. eauto.
Qed.

Lemma str_in_spec p s : str_in p s = true ↔ is_substring p s.
Proof.
  unfold is_substring. induction s as [|c s IH]; simpl.
  - rewrite orb_false_r, startswith_spec. split.
    + intros [post ->]. by exists "", post.
    + intros ([|? ?] & post & H); [eauto | done].
  - rewrite orb_true_iff, startswith_spec, IH. split.
    + intros [[post ->]|(pre & post & ->)].
      * by exists "", post.
      * by exists (String c pre), post.
    + intros ([|c' pre] & post & H).
      * left. eauto.
      * right. injection H as -> ->. eauto.
Qed.

Lemma list_in_spec x l : list_in x l = true ↔ x ∈ l.
Proof. unfold list_in. apply bool_decide_eq_true. Qed.

Lemma _matches_theme_loop_spec genres_lower overview_lower keywords :
  _matches_theme_loop genres_lower overview_lower keywords = true
  ↔ ∃ k, k ∈ keywords ∧ (k ∈ genres_lower ∨ is_substring k overview_lower).
Proof.
  induction keywords as [|k ks IH]; simpl.
  - split; [done | intros (k & Hk & _); by apply elem_of_nil in Hk].
  - destruct (list_in k genres_lower || str_in k overview_lower) eqn:E.
    + split; [|done]. intros _. exists k. split; [apply elem_of_cons; by left|].
      apply orb_true_iff in E as [E|E];
        [left; by apply list_in_spec | right; by apply str_in_spec].
    + rewrite IH. apply orb_false_iff in E as [E1 E2]. split.
      * intros (k' & Hk' & H). exists k'. split; [apply elem_of_cons; by right | done].
      * intros (k' & Hk' & H). apply elem_of_cons in Hk' as [->|Hk']; [|by eauto].
        destruct H as [H|H].
        -- apply list_in_spec in H. congruence.
        -- apply str_in_spec in H. congruence.
Qed.

Lemma _matches_theme_spec genres overview keywords :
  _matches_theme genres overview (lower <$> keywords) = true
  ↔ theme_matches genres overview keywords.
Proof.
  unfold _matches_theme, theme_matches. rewrite _matches_theme_loop_spec. split.
  - intros (k' & Hk' & H). apply list_elem_of_fmap in Hk' as (k & -> & Hk).
    exists k. split; [done|]. destruct H as [H|H]; [left | by right].
    apply list_elem_of_fmap in H as (g & ? & ?). eauto.
  - intros (k & Hk & H). exists (lower k).
    split; [by apply list_elem_of_fmap_2|].
    destruct H as [(g & Hg & ->)|H]; [left | by right].
    by apply list_elem_of_fmap_2.
Qed.

Lemma append_matching_filter {A} (cond : A → bool) (l : list A) :
  append_matching cond l = filter (λ x, cond x = true) l.
Proof.
  unfold append_matching.
  assert (∀ acc,
    foldl (λ matching x, if cond x then matching ++ [x] else matching) acc l
    = acc ++ filter (λ x, cond x = true) l) as H; [|by rewrite H].
  induction l as [|x l IH]; intros acc; simpl.
  - by rewrite app_nil_r.
  - rewrite IH. destruct (cond x) eqn:E.
    + rewrite filter_cons_True by done. by rewrite <- app_assoc.
    + rewrite filter_cons_False; [done | congruence].
Qed.

Lemma search_by_theme_cached keywords self ms ss :
  _movies self = Some ms → _series self = Some ss →
  search_by_theme keywords self = (self, Return (search_of keywords ms ss)).
Proof.
  intros Hm Hs. unfold search_by_theme, bind.
  rewrite (movies_cached _ _ Hm), (tv_shows_cached _ _ Hs), (anime_cached _ _ Hs).
  by rewrite !append_matching_filter.
Qed.

Lemma search_by_theme_inv keywords self self' r :
  search_by_theme keywords self = (self', Return r) →
  ∃ ms ss, _movies self' = Some ms ∧ _series self' = Some ss
           ∧ r = search_of keywords ms ss.
Proof.
  intros H.
  destruct (movies self) as [s1 [ms|e]] eqn:E1; cycle 1.
  { unfold search_by_theme, bind in H. by rewrite E1 in H. }
  apply movies_inv in E1 as E1'. destruct E1' as [Hm1 _].
  destruct (series s1) as [s2 [ss|e]] eqn:E2; cycle 1.
  { unfold search_by_theme, bind in H. rewrite E1 in H.
    unfold tv_shows, anime, bind in H. by rewrite E2 in H. }
  apply series_inv in E2 as E2'. destruct E2' as [Hs2 Hm2].
  rewrite Hm1 in Hm2.
  unfold search_by_theme, bind in H. rewrite E1 in H.
  unfold tv_shows at 1 in H. unfold anime at 1 in H. unfold bind in H.
  rewrite E2 in H. unfold ret at 1 in H.
  rewrite (series_cached _ _ Hs2) in H. unfold ret at 1 in H.
  rewrite (anime_cached _ _ Hs2) in H. unfold ret in H.
  injection H as <- <-. exists ms, ss.
  by rewrite !append_matching_filter.
Qed.



(** C10. With no keyword, a call of [search_by_theme] on a populated
    library returns three empty lists, whatever the caches hold; and
    whenever a call with no keyword returns, its three lists are empty. *)
Theorem search_by_theme_no_keywords (self : MediaLibrary) :
  (∀ ms ss, _movies self = Some ms → _series self = Some ss →
     search_by_theme [] self = (self, Return (mk_theme_result [] [] [])))
  ∧ (∀ self' r, search_by_theme [] self = (self', Return r) →
       r_movies r = [] ∧ r_shows r = [] ∧ r_anime r = []).
Proof.
  assert (∀ {A} (l : list A) (cond : A → bool),
    (∀ x, cond x = false) → filter (λ x, cond x = true) l = []) as Hnone.
  { intros A l cond Hc. induction l as [|x l IH]; [done|].
    rewrite filter_cons_False; [done|]. by rewrite Hc. }
  assert (∀ ms ss, search_of [] ms ss = mk_theme_result [] [] []) as Hempty.
  { intros ms ss. unfold search_of. by rewrite !Hnone. }
  split.
  - intros ms ss Hm Hs. by rewrite (search_by_theme_cached _ _ _ _ Hm Hs), Hempty.
  - intros self' r H.
    apply search_by_theme_inv in H as (ms & ss & _ & _ & ->).
    by rewrite Hempty.
Qed.

Lemma search_by_theme_no_keywords_witness :
  let self := mk_library scenario_radarr scenario_sonarr
                (Some themed_movies) (Some themed_series) in
  search_by_theme [] self = (self, Return (mk_theme_result [] [] []))
  ∧ r_movies (mk_theme_result [] [] []) = [].
Proof.
  intros self.
  destruct (search_by_theme_no_keywords self) as [Hret Hprops].
  specialize (Hret themed_movies themed_series eq_refl eq_refl).
  split; [exact Hret|]. by destruct (Hprops _ _ Hret) as (? & _).
Defined.

(** ** The lifetime of an instance *)

Lemma keeps_ret {A} P (a : A) : keeps P (ret a).
Proof. by intros self. Qed.

Lemma keeps_bind {A B} P (m : Method A) (k : A → Method B) :
  keeps P m → (∀ a, keeps P (k a)) → keeps P (bind m k).
Proof.
  intros Hm Hk self HP. unfold bind. specialize (Hm self HP).
  destruct (m self) as [s1 [a|e]]; [by apply Hk | done].
Qed.

Ltac keeps_tac :=
  repeat first
    [ apply keeps_ret
    | assumption
    | apply keeps_bind; [|intros ?] ].

Section Kept.
Context (P : MediaLibrary → Prop) (HP : kept_by_accessors P).

Lemma keeps_movies : keeps P movies.
Proof. exact (proj1 HP). Qed.

Lemma keeps_series : keeps P series.
Proof. exact (proj2 HP). Qed.

Lemma keeps_anime : keeps P anime.
Proof. pose proof keeps_series. unfold anime. keeps_tac. Qed.

Lemma keeps_tv_shows : keeps P tv_shows.
Proof. pose proof keeps_series. pose proof keeps_anime. unfold tv_shows. keeps_tac. Qed.

Lemma keeps_get_media_summary : keeps P get_media_summary.
Proof.
  pose proof keeps_movies. pose proof keeps_tv_shows. pose proof keeps_anime.
  unfold get_media_summary, get_media_summary_lines. keeps_tac.
Qed.

Lemma keeps_get_genre_stats : keeps P get_genre_stats.
Proof.
  pose proof keeps_movies. pose proof keeps_series.
  unfold get_genre_stats. keeps_tac.
Qed.

Lemma keeps_search_by_theme kws : keeps P (search_by_theme kws).
Proof.
  pose proof keeps_movies. pose proof keeps_tv_shows. pose proof keeps_anime.
  unfold search_by_theme. keeps_tac.
Qed.

Lemma perform_kept c self : P self → P (perform c self).
Proof.
  destruct c; simpl.
  - apply keeps_movies.
  - apply keeps_series.
  - apply keeps_anime.
  - apply keeps_tv_shows.
  - apply keeps_get_media_summary.
  - apply keeps_get_genre_stats.
  - apply keeps_search_by_theme.
Qed.

Lemma lifetime_kept calls self : P self → P (lifetime calls self).
Proof.
  revert self. induction calls as [|c calls IH]; intros self Hself; [done|].
  simpl. by apply IH, perform_kept.
Qed.
End Kept.

(** What each accessor leaves alone. *)
Lemma movies_frame self :
  sonarr (movies self).1 = sonarr self
  ∧ _series (movies self).1 = _series self
  ∧ reply (radarr (movies self).1) = reply (radarr self).
Proof.
  unfold movies, get_movies, _get. destruct (_movies self); [done|].
  by destruct (reply (radarr self) (sent (radarr self))).
Qed.

Lemma series_frame self :
  radarr (series self).1 = radarr self
  ∧ _movies (series self).1 = _movies self
  ∧ reply (sonarr (series self).1) = reply (sonarr self).
Proof.
  unfold series, get_series, _get. destruct (_series self); [done|].
  by destruct (reply (sonarr self) (sent (sonarr self))).
Qed.

Lemma movies_cache_kept ms client :
  kept_by_accessors (λ self, _movies self = Some ms ∧ radarr self = client).
Proof.
  split; intros self [Hc Hr].
  - by rewrite (movies_cached _ _ Hc).
  - destruct (series_frame self) as (-> & -> & _). done.
Qed.

Lemma series_cache_kept ss client :
  kept_by_accessors (λ self, _series self = Some ss ∧ sonarr self = client).
Proof.
  split; intros self [Hc Hr].
  - destruct (movies_frame self) as (-> & -> & _). done.
  - by rewrite (series_cached _ _ Hc).
Qed.

Lemma services_kept movie_service series_service :
  kept_by_accessors (λ self, reply (radarr self) = movie_service
                             ∧ reply (sonarr self) = series_service).
Proof.
  split; intros self [H1 H2].
  - destruct (movies_frame self) as (-> & _ & ->). done.
  - destruct (series_frame self) as (-> & _ & ->). done.
Qed.

Lemma fetched_once_get {R I} (build : list R → list I) (client : ArrAPIClient R) :
  fetched_once build client None →
  match reply client (sent client) with
  | inl e => fetched_once build (mk_client (reply client) (S (sent client))) None
  | inr data =>
      fetched_once build (mk_client (reply client) (S (sent client)))
        (Some (build data))
  end.
Proof.
  intros Hinv. destruct (reply client (sent client)) as [e|data] eqn:E; simpl.
  - intros n Hn. destruct (decide (n = sent client)) as [->|Hne]; [eauto|].
    apply Hinv. lia.
  - exists (sent client), data. eauto.
Qed.

Lemma movies_fetched_once_kept : kept_by_accessors movies_fetched_once.
Proof.
  split; intros self; unfold movies_fetched_once.
  - unfold movies. destruct (_movies self) as [ms|] eqn:Hc; [simpl; by rewrite Hc|].
    intros Hinv. apply fetched_once_get in Hinv.
    unfold get_movies, _get.
    by destruct (reply (radarr self) (sent (radarr self))).
  - by destruct (series_frame self) as (-> & -> & _).
Qed.

Lemma series_fetched_once_kept : kept_by_accessors series_fetched_once.
Proof.
  split; intros self; unfold series_fetched_once.
  - by destruct (movies_frame self) as (-> & -> & _).
  - unfold series. destruct (_series self) as [ss|] eqn:Hc; [simpl; by rewrite Hc|].
    intros Hinv. apply fetched_once_get in Hinv.
    unfold get_series, _get.
    by destruct (reply (sonarr self) (sent (sonarr self))).
Qed.

(** The two accessors commute: either order of first requests ends in the
    same instance and hands out the same two outcomes. *)
Lemma movies_series_commute self :
  (series (movies self).1).1 = (movies (series self).1).1
  ∧ (series (movies self).1).2 = (series self).2
  ∧ (movies (series self).1).2 = (movies self).2.
Proof.
  unfold movies, series, get_movies, get_series, _get.
  destruct self as [r s [ms|] [ss|]]; simpl; [done| | |].
  - by destruct (reply s (sent s)) eqn:Es; simpl; rewrite ?Es.
  - by destruct (reply r (sent r)) eqn:Er; simpl; rewrite ?Er.
  - by destruct (reply r (sent r)) eqn:Er, (reply s (sent s)) eqn:Es; simpl;
      rewrite ?Er, ?Es.
Qed.

(** C8. Over any sequence of calls on an instance: a movie cache that is
    populated stays the same list, no further GET goes to the movie
    catalog, and [movies] keeps returning that list; likewise for the series
    cache; from construction on, a populated cache holds what the one
    successful GET of its client returned, that GET being the last one the
    client sent, every earlier one having failed; and the two accessors
    commute, so the order of the first requests does not matter. *)
Theorem caches_populated_once (self : MediaLibrary) (calls : list call) :
  (∀ ms, _movies self = Some ms →
     _movies (lifetime calls self) = Some ms
     ∧ radarr (lifetime calls self) = radarr self
     ∧ movies (lifetime calls self) = (lifetime calls self, Return ms))
  ∧ (∀ ss, _series self = Some ss →
     _series (lifetime calls self) = Some ss
     ∧ sonarr (lifetime calls self) = sonarr self
     ∧ series (lifetime calls self) = (lifetime calls self, Return ss))
  ∧ (∀ movie_service series_service,
       let born := lifetime calls (new_library movie_service series_service) in
       movies_fetched_once born ∧ series_fetched_once born
       ∧ reply (radarr born) = movie_service ∧ reply (sonarr born) = series_service)
  ∧ (series (movies self).1).1 = (movies (series self).1).1
  ∧ (series (movies self).1).2 = (series self).2
  ∧ (movies (series self).1).2 = (movies self).2.
Proof.
  split; [|split; [|split]].
  - intros ms Hc.
    destruct (lifetime_kept _ (movies_cache_kept ms (radarr self)) calls self)
      as [Hc' Hr']; [done|].
    split; [done|]. split; [done|]. by apply movies_cached.
  - intros ss Hc.
    destruct (lifetime_kept _ (series_cache_kept ss (sonarr self)) calls self)
      as [Hc' Hr']; [done|].
    split; [done|]. split; [done|]. by apply series_cached.
  - intros f g born. split; [|split].
    + apply (lifetime_kept _ movies_fetched_once_kept).
      intros n Hn. simpl in Hn. lia.
    + apply (lifetime_kept _ series_fetched_once_kept).
      intros n Hn. simpl in Hn. lia.
    + by apply (lifetime_kept _ (services_kept f g)).
  - apply movies_series_commute.
Qed.

Lemma caches_populated_once_witness :
  let self :=
    lifetime [Movies; Movies; Series]
      (new_library flaky_movie_service steady_series_service) in
  let later := lifetime [GetMediaSummary; Movies; SearchByTheme ["anime"]; Series] self in
  _movies later = Some [MovieItem.mk 1 "Movie A" 2020 ["Action"] 0 "" (17 # 2) 0 true]
  ∧ sent (radarr later) = 2%nat
  ∧ _series later = Some [SeriesItem.mk 5 "Show X" 0 [] 0 "" 0 12 "anime"]
  ∧ sent (sonarr later) = 1%nat.
Proof.
  intros self later.
  destruct (caches_populated_once self
              [GetMediaSummary; Movies; SearchByTheme ["anime"]; Series])
    as (Hm & Hs & _).
  destruct (Hm _ eq_refl) as (Hm1 & Hm2 & _).
  destruct (Hs _ eq_refl) as (Hs1 & Hs2 & _).
  unfold later. rewrite Hm1, Hm2, Hs1, Hs2. done.
Defined.

(** ** Failing fetches *)

Lemma movies_raise self e :
  _movies self = None → reply (radarr self) (sent (radarr self)) = inl e →
  movies self
  = (mk_library (mk_client (reply (radarr self)) (S (sent (radarr self))))
       (sonarr self) None (_series self),
     Raise e).
Proof.
  intros Hc Hr. unfold movies, get_movies, _get. by rewrite Hc, Hr.
Qed.

Lemma series_raise self e :
  _series self = None → reply (sonarr self) (sent (sonarr self)) = inl e →
  series self
  = (mk_library (radarr self)
       (mk_client (reply (sonarr self)) (S (sent (sonarr self))))
       (_movies self) None,
     Raise e).
Proof.
  intros Hc Hr. unfold series, get_series, _get. by rewrite Hc, Hr.
Qed.

Lemma series_return self data :
  _series self = None → reply (sonarr self) (sent (sonarr self)) = inr data →
  series self
  = (mk_library (radarr self)
       (mk_client (reply (sonarr self)) (S (sent (sonarr self))))
       (_movies self) (Some (get_series_loop data [])),
     Return (get_series_loop data [])).
Proof.
  intros Hc Hr. unfold series, get_series, _get. by rewrite Hc, Hr.
Qed.

(** C9. A failing GET of the movie catalog makes [movies] raise the very
    exception of the transport, after that one GET, with the movie cache
    still unpopulated and the series side untouched; [series] behaves on
    the instance left behind as it would have before, so it returns the
    series when its own GET succeeds; the same holds with the two catalogs
    exchanged; and [get_media_summary()] raises that exception, returning
    no document, when the movie fetch fails, or when the movie list is
    obtained and the series fetch fails. *)
Theorem fetch_failure_propagates (self : MediaLibrary) (e : httpx_error) :
  (_movies self = None → reply (radarr self) (sent (radarr self)) = inl e →
     movies self
     = (mk_library (mk_client (reply (radarr self)) (S (sent (radarr self))))
          (sonarr self) None (_series self),
        Raise e)
     ∧ (series (movies self).1).2 = (series self).2
     ∧ (∀ data, _series self = None →
          reply (sonarr self) (sent (sonarr self)) = inr data →
          (series (movies self).1).2 = Return (get_series_loop data [])
          ∧ _series (series (movies self).1).1 = Some (get_series_loop data [])
          ∧ _movies (series (movies self).1).1 = None)
     ∧ get_media_summary self = ((movies self).1, Raise e))
  ∧ (_series self = None → reply (sonarr self) (sent (sonarr self)) = inl e →
     series self
     = (mk_library (radarr self)
          (mk_client (reply (sonarr self)) (S (sent (sonarr self))))
          (_movies self) None,
        Raise e)
     ∧ (movies (series self).1).2 = (movies self).2
     ∧ (∀ ms, (movies self).2 = Return ms →
          get_media_summary self = ((series (movies self).1).1, Raise e)
          ∧ _movies (series (movies self).1).1 = Some ms
          ∧ _series (series (movies self).1).1 = None)).
Proof.
  destruct (movies_series_commute self) as (Hcomm & Hs & Hm).
  split.
  - intros Hc Hr. pose proof (movies_raise _ _ Hc Hr) as Hraise.
    split; [done|]. split; [done|]. split.
    + intros data Hsc Hsr. rewrite Hs, Hcomm.
      rewrite (series_return _ _ Hsc Hsr). simpl.
      split; [done|]. split.
      * by destruct (movies_frame
          (mk_library (radarr self)
             (mk_client (reply (sonarr self)) (S (sent (sonarr self))))
             (_movies self) (Some (get_series_loop data [])))) as (_ & -> & _).
      * rewrite (movies_raise _ e); [done | exact Hc | exact Hr].
    + unfold get_media_summary, get_media_summary_lines, bind.
      by rewrite Hraise.
  - intros Hc Hr. pose proof (series_raise _ _ Hc Hr) as Hraise.
    split; [done|]. split; [done|].
    intros ms Hms.
    destruct (movies self) as [s1 [ms'|e']] eqn:E1; simpl in Hms; [|done].
    injection Hms as ->. simpl.
    apply movies_inv in E1 as E1'. destruct E1' as [Hm1 Hs1].
    destruct (movies_frame self) as (Hson & _ & _). rewrite E1 in Hson. simpl in Hson.
    assert (series s1
            = (mk_library (radarr s1)
                 (mk_client (reply (sonarr s1)) (S (sent (sonarr s1))))
                 (_movies s1) None, Raise e)) as Hs1raise.
    { apply series_raise; [congruence | by rewrite Hson]. }
    split; [|by rewrite Hs1raise].
    unfold get_media_summary, get_media_summary_lines, bind.
    rewrite E1, (movies_cached _ _ Hm1).
    unfold tv_shows, anime, bind. by rewrite Hs1raise.
Qed.

Lemma fetch_failure_witness :
  let down := new_library failing_movie_service steady_series_service in
  let half := new_library flaky_movie_service failing_series_service in
  (movies down).2 = Raise (RequestError "connection refused")
  ∧ (series (movies down).1).2
    = Return [SeriesItem.mk 5 "Show X" 0 [] 0 "" 0 12 "anime"]
  ∧ (get_media_summary down).2 = Raise (RequestError "connection refused")
  ∧ (get_media_summary (movies half).1).2 = Raise (HTTPStatusError 500).
Proof.
  intros down half.
  destruct (fetch_failure_propagates down (RequestError "connection refused"))
    as [Hmovies _].
  destruct (Hmovies eq_refl eq_refl) as (Hraise & _ & Hseries & Hsummary).
  destruct (Hseries [show_x; no_episode_show] eq_refl eq_refl) as (Hret & _).
  destruct (fetch_failure_propagates (movies half).1 (HTTPStatusError 500))
    as [_ Hs].
  destruct (Hs eq_refl eq_refl) as (_ & _ & Hsum2).
  destruct (Hsum2 _ eq_refl) as (Hsum2' & _).
  split; [by rewrite Hraise|]. split; [exact Hret|].
  split; [by rewrite Hsummary, Hraise|]. by rewrite Hsum2'.
Defined.

(** * Further properties of the clients *)

(** ** The request URL *)

Lemma rstrip_slash_slashes n : rstrip_slash (slashes n) = "".
Proof. induction n as [|n IH]; [done|]. simpl. by rewrite IH. Qed.

Lemma rstrip_slash_app_slashes s n :
  rstrip_slash (s +:+ slashes n) = rstrip_slash s.
Proof.
  induction s as [|c s IH]; simpl; [apply rstrip_slash_slashes|].
  by rewrite IH.
Qed.

Lemma rstrip_slash_decompose s : ∃ n, s = rstrip_slash s +:+ slashes n.
Proof.
  induction s as [|c s [n IH]]; [by exists 0%nat|].
  simpl. destruct (rstrip_slash s) as [|c' r].
  - case_bool_decide as Hc.
    + exists (S n). simpl. by rewrite Hc, IH.
    + exists n. simpl. by rewrite IH.
  - exists n. simpl. by rewrite IH.
Qed.

Lemma rstrip_slash_no_trailing s t : rstrip_slash s ≠ t +:+ "/".
Proof.
  revert t. induction s as [|c s IH]; intros t; simpl.
  - by destruct t.
  - destruct (rstrip_slash s) as [|c' r].
    + case_bool_decide as Hc; [by destruct t|].
      destruct t as [|? [|? ?]]; intros H; cbv [String.append] in H; congruence.
    + destruct t as [|c0 t]; intros H; cbv [String.append] in H;
        fold String.append in H; [congruence|].
      injection H as -> H. by apply (IH t).
Qed.

(** X1. However many slashes end the [base_url] a client is constructed
    with, its requests are the same: the stored base URL is [base_url]
    without its trailing slashes, it ends with no slash, stripping it again
    changes nothing, and the URL requested is that stem followed by
    "/api/v3/" and the endpoint. *)
Theorem request_url_ignores_trailing_slashes
    (base_url api_key endpoint : string) (n : nat) :
  client_request (base_url +:+ slashes n) api_key endpoint
  = client_request base_url api_key endpoint
  ∧ (∃ m, base_url = init_base_url base_url +:+ slashes m)
  ∧ (∀ t, init_base_url base_url ≠ t +:+ "/")
  ∧ init_base_url (init_base_url base_url) = init_base_url base_url
  ∧ request_url (client_request base_url api_key endpoint)
    = init_base_url base_url +:+ "/api/v3/" +:+ endpoint
  ∧ request_headers (client_request base_url api_key endpoint)
    = [("X-Api-Key", api_key)].
Proof.
  unfold client_request, init_base_url.
  split; [by rewrite rstrip_slash_app_slashes|].
  split; [apply rstrip_slash_decompose|].
  split; [apply rstrip_slash_no_trailing|].
  split; [|done].
  destruct (rstrip_slash_decompose base_url) as [m Hm].
  rewrite Hm at 2. by rewrite rstrip_slash_app_slashes.
Qed.

Lemma request_url_witness :
  request_url (client_request "http://radarr:7878///" "k" "movie")
  = "http://radarr:7878/api/v3/movie"
  ∧ init_base_url "http://radarr:7878" ≠ "http://radarr:787" +:+ "/".
Proof.
  destruct (request_url_ignores_trailing_slashes "http://radarr:7878" "k" "movie" 3)
    as (Hsame & _ & Hno & _ & Hurl & _).
  split; [|apply Hno].
  change "http://radarr:7878///" with ("http://radarr:7878" +:+ slashes 3).
  by rewrite Hsame, Hurl.
Defined.

(** ** The genre filters of the clients *)

Lemma any_spec {A} (f : A → bool) (l : list A) :
  any f l = true ↔ ∃ x, x ∈ l ∧ f x = true.
Proof.
  induction l as [|x l IH]; simpl.
  - split; [done | intros (x & Hx & _); by apply elem_of_nil in Hx].
  - destruct (f x) eqn:E.
    + split; [|done]. intros _. exists x. split; [apply elem_of_cons; by left | done].
    + rewrite IH. split.
      * intros (y & Hy & Hf). exists y. split; [apply elem_of_cons; by right | done].
      * intros (y & Hy & Hf). apply elem_of_cons in Hy as [->|Hy]; [congruence | eauto].
Qed.

Lemma any_genre_is_spec genre genres :
  any_genre_is (lower genre) genres = true
  ↔ ∃ g, g ∈ genres ∧ lower g = lower genre.
Proof.
  unfold any_genre_is. rewrite any_spec.
  split; intros (g & Hg & H); exists g; split; try done.
  - by apply bool_decide_eq_true in H.
  - by apply bool_decide_eq_true.
Qed.


Lemma get_series_raise (self : ArrAPIClient Raw.series) e :
  reply self (sent self) = inl e →
  get_series self = (mk_client (reply self) (S (sent self)), Raise e).
Proof. intros H. unfold get_series, _get. by rewrite H. Qed.





(** ** Anime, by the client and by the library *)

Lemma is_anime_spec s :
  is_anime s = true
  ↔ SeriesItem.series_type s = "anime"
    ∨ ∃ g, g ∈ SeriesItem.genres s ∧ lower g = "anime".
Proof.
  unfold is_anime. rewrite orb_true_iff, bool_decide_eq_true, list_in_spec,
    list_elem_of_fmap.
  split; (intros [H|(g & H1 & H2)]; [by left | right; exists g; done]).
Qed.

Lemma is_anime_of_raw r : is_anime (series_of_raw r) = true ↔ raw_is_anime r.
Proof.
  rewrite is_anime_spec. unfold raw_is_anime. simpl. unfold get.
  destruct (Raw.s_seriesType r) as [t|]; simpl.
  - split; (intros [H|H]; [left; congruence | by right]).
  - split; (intros [H|H]; [done | by right]).
Qed.

(** X4. [SonarrClient.get_anime()] sends one GET. When it is answered, the
    series returned are those built from a record with downloaded episodes
    whose [seriesType] is "anime" or one of whose genres is "anime" in
    lower case (an absent [seriesType] counts as "standard"); a library
    with that client and an empty series cache gives the same list as its
    [anime] view; when the GET fails, the call raises that exception. *)
Theorem get_anime_spec (self : ArrAPIClient Raw.series) :
  (∀ data, reply self (sent self) = inr data →
     ∃ result,
       get_anime self = (mk_client (reply self) (S (sent self)), Return result)
       ∧ (∀ s, s ∈ result
               ↔ ∃ r, r ∈ data ∧ raw_episode_count r ≠ 0 ∧ s = series_of_raw r
                      ∧ raw_is_anime r)
       ∧ ∀ movie_client movie_cache,
           (anime (mk_library movie_client self movie_cache None)).2 = Return result)
  ∧ (∀ e, reply self (sent self) = inl e →
       get_anime self = (mk_client (reply self) (S (sent self)), Raise e)).
Proof.
  split.
  - intros data Hr. eexists. unfold get_anime.
    rewrite (get_series_return _ _ Hr). split; [done|]. split.
    + intros s. rewrite list_elem_of_filter, list_elem_of_fmap. split.
      * intros [Ha (r & -> & Hin)]. apply list_elem_of_filter in Hin as [Hc Hin].
        exists r. by rewrite <- is_anime_of_raw.
      * intros (r & Hin & Hc & -> & Ha). split; [by apply is_anime_of_raw|].
        exists r. split; [done|]. by apply list_elem_of_filter.
    + intros mc mcache. unfold anime, bind, series. simpl.
      by rewrite (get_series_return _ _ Hr).
  - intros e Hr. unfold get_anime. by rewrite (get_series_raise _ _ Hr).
Qed.

Lemma get_anime_witness :
  (get_anime scenario_sonarr).2
  = Return [SeriesItem.mk 5 "Show X" 0 [] 0 "" 0 12 "anime"]
  ∧ (get_anime (mk_client failing_series_service 0)).2 = Raise (HTTPStatusError 500).
Proof.
  destruct (get_anime_spec scenario_sonarr) as (Hok & _).
  destruct (Hok _ eq_refl) as (result & Hret & _).
  destruct (get_anime_spec (mk_client failing_series_service 0)) as (_ & Hfail).
  split; [|by rewrite (Hfail _ eq_refl)].
  rewrite Hret. simpl. f_equal. vm_compute in Hret. by injection Hret as <-.
Defined.

(** X5. On a library whose series cache is empty and whose series GET is
    answered, [tv_shows] sends that one GET, although it reads
    [self.series] twice, and leaves the cache populated; every record with
    downloaded episodes that is anime by type or by genre is in the
    [anime] view, and neither it nor its identifier is in [tv_shows]. *)
Theorem tv_shows_fetches_once (self : MediaLibrary) (data : list Raw.series) :
  _series self = None →
  reply (sonarr self) (sent (sonarr self)) = inr data →
  let ss := series_of_raw <$> filter (λ r, raw_episode_count r ≠ 0) data in
  let self' :=
    mk_library (radarr self)
      (mk_client (reply (sonarr self)) (S (sent (sonarr self))))
      (_movies self) (Some ss) in
  tv_shows self = (self', Return (tv_shows_of (anime_of ss) ss))
  ∧ anime self' = (self', Return (anime_of ss))
  ∧ ∀ r, r ∈ data → raw_episode_count r ≠ 0 → raw_is_anime r →
         series_of_raw r ∈ anime_of ss
         ∧ (series_of_raw r ∉ tv_shows_of (anime_of ss) ss)
         ∧ (SeriesItem.id (series_of_raw r)
            ∉ series_ids (tv_shows_of (anime_of ss) ss)).
Proof.
  intros Hc Hr ss self'.
  assert (series self = (self', Return ss)) as Hfetch.
  { rewrite (series_return _ _ Hc Hr). by rewrite get_series_loop_app. }
  split; [|split].
  - unfold tv_shows, anime, bind. rewrite Hfetch. unfold ret.
    by rewrite (series_cached self' ss).
  - by apply anime_cached.
  - intros r Hin Hcount Hanime.
    assert (series_of_raw r ∈ anime_of ss) as Hmem.
    { apply list_elem_of_filter. split; [by apply is_anime_of_raw|].
      apply list_elem_of_fmap_2. by apply list_elem_of_filter. }
    assert (SeriesItem.id (series_of_raw r) ∈ series_ids (anime_of ss)) as Hid.
    { apply elem_of_series_ids. eauto. }
    split; [done|]. split.
    + intros Htv. apply list_elem_of_filter in Htv as [Hout _]. done.
    + intros Htv. apply elem_of_series_ids in Htv as (s & Hs & Heq).
      apply list_elem_of_filter in Hs as [Hout _]. apply Hout.
      fold (series_ids (anime_of ss)). by rewrite Heq.
Qed.

Lemma tv_shows_fetches_once_witness :
  let self := new_library failing_movie_service steady_series_service in
  (tv_shows self).2 = Return []
  ∧ sent (sonarr (tv_shows self).1) = 1%nat
  ∧ series_of_raw show_x
    ∈ anime_of [SeriesItem.mk 5 "Show X" 0 [] 0 "" 0 12 "anime"].
Proof.
  intros self.
  destruct (tv_shows_fetches_once self [show_x; no_episode_show] eq_refl eq_refl)
    as (Htv & _ & Hanime).
  split; [by rewrite Htv|]. split; [by rewrite Htv|].
  apply (Hanime show_x); [set_solver | done | by left].
Defined.

(** ** The two views of the series cache *)

Lemma NoDup_fmap_elem_inj {A B} (f : A → B) (l : list A) x y :
  NoDup (f <$> l) → x ∈ l → y ∈ l → f x = f y → x = y.
Proof.
  intros Hnd Hx Hy Heq.
  apply list_elem_of_lookup in Hx as [i Hi].
  apply list_elem_of_lookup in Hy as [j Hj].
  assert (i = j) as ->; [|congruence].
  eapply NoDup_lookup; [exact Hnd| |].
  - rewrite list_lookup_fmap, Hi. reflexivity.
  - rewrite list_lookup_fmap, Hj. simpl. by rewrite Heq.
Qed.

Lemma filter_ext_elem {A} (P Q : A → Prop) `{!∀ x, Decision (P x)}
    `{!∀ x, Decision (Q x)} (l : list A) :
  (∀ x, x ∈ l → (P x ↔ Q x)) → filter P l = filter Q l.
Proof.
  induction l as [|x l IH]; intros Hext; [done|].
  rewrite !filter_cons.
  rewrite IH by (intros y Hy; apply Hext, elem_of_cons; by right).
  pose proof (Hext x ltac:(apply elem_of_cons; by left)) as Hx.
  destruct (decide (P x)), (decide (Q x)); tauto || done.
Qed.

Lemma length_filter_exclusive {A} (P Q : A → Prop) `{!∀ x, Decision (P x)}
    `{!∀ x, Decision (Q x)} (l : list A) :
  (∀ x, x ∈ l → Q x → ¬ P x) →
  (length (filter P l) + length (filter Q l) ≤ length l)%nat.
Proof.
  induction l as [|x l IH]; intros Hexc; [done|].
  rewrite !filter_cons.
  specialize (IH ltac:(intros y Hy; apply Hexc, elem_of_cons; by right)).
  pose proof (Hexc x ltac:(apply elem_of_cons; by left)) as Hx.
  destruct (decide (P x)), (decide (Q x)); simpl; try lia. tauto.
Qed.

Lemma tv_shows_of_not_anime ss s :
  s ∈ tv_shows_of (anime_of ss) ss → is_anime s ≠ true.
Proof.
  intros Hs Ha. apply list_elem_of_filter in Hs as [Hout Hin]. apply Hout.
  fold (series_ids (anime_of ss)). apply elem_of_series_ids.
  exists s. split; [|done]. by apply list_elem_of_filter.
Qed.

(** X6. On a populated series cache, no item of [tv_shows] satisfies the
    anime condition, and the two views together hold at most as many items
    as the cache. When the identifiers in the cache are pairwise distinct,
    [tv_shows] is exactly the items failing the anime condition, and the
    two views together are a rearrangement of the cache, so that their
    sizes add up to its size. *)
Theorem views_split_series (self : MediaLibrary) (ss : list SeriesItem.t) :
  _series self = Some ss →
  ∃ an tv,
    anime self = (self, Return an)
    ∧ tv_shows self = (self, Return tv)
    ∧ (∀ s, s ∈ tv → is_anime s ≠ true)
    ∧ (length an + length tv ≤ length ss)%nat
    ∧ (NoDup (SeriesItem.id <$> ss) →
       tv = filter (λ s, is_anime s ≠ true) ss
       ∧ an ++ tv ≡ₚ ss
       ∧ (length an + length tv = length ss)%nat).
Proof.
  intros Hc. exists (anime_of ss), (tv_shows_of (anime_of ss) ss).
  split; [by apply anime_cached|]. split; [by apply tv_shows_cached|].
  split; [apply tv_shows_of_not_anime|]. split.
  - apply length_filter_exclusive. intros s Hs Hout Ha. apply Hout.
    fold (series_ids (anime_of ss)). apply elem_of_series_ids.
    exists s. split; [|done]. by apply list_elem_of_filter.
  - intros Hnd.
    assert (tv_shows_of (anime_of ss) ss = filter (λ s, is_anime s ≠ true) ss) as Htv.
    { apply filter_ext_elem. intros s Hs.
      fold (series_ids (anime_of ss)). split.
      - intros Hout Ha. apply Hout, elem_of_series_ids.
        exists s. split; [|done]. by apply list_elem_of_filter.
      - intros Hna Hin. apply elem_of_series_ids in Hin as (a & Ha & Heq).
        apply list_elem_of_filter in Ha as [Ha Hain].
        by rewrite (NoDup_fmap_elem_inj SeriesItem.id ss a s Hnd Hain Hs Heq) in Ha. }
    assert (anime_of ss ++ tv_shows_of (anime_of ss) ss ≡ₚ ss) as Hperm.
    { rewrite Htv. apply (filter_app_complement (λ s, is_anime s = true)). }
    split; [done|]. split; [done|].
    by rewrite <- (Permutation_length Hperm), length_app.
Qed.

Lemma views_split_series_witness :
  let ss := [SeriesItem.mk 7 "A" 0 [] 0 "" 0 1 "anime";
             SeriesItem.mk 8 "B" 0 ["Drama"] 0 "" 0 1 "standard"] in
  let self := mk_library scenario_radarr scenario_sonarr None (Some ss) in
  ∃ an tv,
    anime self = (self, Return an) ∧ tv_shows self = (self, Return tv)
    ∧ (length an + length tv = 2)%nat.
Proof.
  intros ss self.
  destruct (views_split_series self ss eq_refl)
    as (an & tv & Han & Htv & _ & _ & Hsplit).
  destruct (Hsplit ltac:(compute_done)) as (_ & _ & Hlen).
  exists an, tv. done.
Defined.

(** ** The TV Shows and Anime tables *)

Lemma sorted_series_perm l : sorted_series l ≡ₚ l.
Proof. apply sorted_reverse_perm. Qed.

Lemma sorted_series_not_below l :
  StronglySorted (not_below series_key Qlt_bool) (sorted_series l).
Proof.
  apply sorted_reverse_sorted.
  - apply Qlt_bool_irrefl.
  - apply Qlt_bool_trans.
  - apply Qlt_bool_incomparable_trans.
Qed.

Lemma sorted_series_stable r l :
  filter (λ s, SeriesItem.rating s == r)%Q (sorted_series l)
  = filter (λ s, SeriesItem.rating s == r)%Q l.
Proof.
  rewrite <- !(list_filter_iff (same_key series_key Qlt_bool r)
                 (λ s, SeriesItem.rating s == r)%Q)
    by (intros s; apply (same_key_rating SeriesItem.rating)).
  apply sorted_reverse_stable, Qlt_bool_incomparable_trans.
Qed.

Lemma take_50_ranked l : ranked_rows (take 50 (sorted_series l)) l.
Proof.
  split; [done|]. split; [|split; [|split]].
  - by rewrite length_take, (Permutation_length (sorted_series_perm l)).
  - intros s Hs. rewrite <- (sorted_series_perm l). by apply (subseteq_take 50).
  - intros i j s1 s2 Hi Hj Hlt.
    apply lookup_take_Some in Hi as [Hi _]. apply lookup_take_Some in Hj as [Hj _].
    pose proof (sorted_lookup_not_below _ _ _ _ _ _ _
                  (sorted_series_not_below l) Hi Hj Hlt) as Hnb.
    unfold not_below, series_key in Hnb. apply Qlt_bool_false in Hnb.
    by rewrite !or_0_eq in Hnb.
  - intros r. rewrite <- (sorted_series_stable r l). apply filter_take_prefix.
Qed.

(** X7. Whenever [get_media_summary()] returns a document, its TV Shows
    table and its Anime table each render the first 50 of their view
    sorted by rating: at most 50 rows, drawn from the view, non-increasing
    in rating, the series of one rating in the order of the view; each
    table ends with the size of the whole view, not of the rows shown; and
    no identifier has a row in both tables. *)
Theorem series_tables_top_50_by_rating (self self' : MediaLibrary) (doc : string) :
  get_media_summary self = (self', Return doc) →
  ∃ ms ss tv an tv_rows an_rows,
    _movies self' = Some ms ∧ _series self' = Some ss
    ∧ doc = join newline (summary_lines_of ms ss)
    ∧ tv = tv_shows_of (anime_of ss) ss ∧ an = anime_of ss
    ∧ summary_lines_of ms ss
      = ["# Available Media Library" +:+ newline] ++ movies_table ms
        ++ (["## TV Shows";
             "| Title | Year | Genres | Rating | Episodes |";
             "|-------|------|--------|--------|----------|"]
            ++ (show_row <$> tv_rows) ++ [total_line "TV shows" (length tv)])
        ++ (["## Anime";
             "| Title | Year | Genres | Rating | Episodes |";
             "|-------|------|--------|--------|----------|"]
            ++ (anime_row <$> an_rows) ++ [total_line "anime" (length an)])
    ∧ ranked_rows tv_rows tv
    ∧ ranked_rows an_rows an
    ∧ series_ids tv_rows ∩ series_ids an_rows = ∅.
Proof.
  intros H. apply get_media_summary_inv in H as (ms & ss & Hm & Hs & ->).
  exists ms, ss, (tv_shows_of (anime_of ss) ss), (anime_of ss),
    (take 50 (sorted_series (tv_shows_of (anime_of ss) ss))),
    (take 50 (sorted_series (anime_of ss))).
  do 6 (split; [done|]).
  pose proof (take_50_ranked (tv_shows_of (anime_of ss) ss)) as Htv.
  pose proof (take_50_ranked (anime_of ss)) as Han.
  split; [done|]. split; [done|].
  apply set_eq. intros x. rewrite elem_of_intersection, elem_of_empty.
  split; [|done]. intros [Hx Hy].
  apply elem_of_series_ids in Hx as (s & Hs1 & <-).
  apply elem_of_series_ids in Hy as (a & Ha1 & Heq).
  destruct Htv as (_ & _ & Htv & _). destruct Han as (_ & _ & Han & _).
  apply Htv in Hs1. apply Han in Ha1.
  apply list_elem_of_filter in Hs1 as [Hout _]. apply Hout.
  fold (series_ids (anime_of ss)). apply elem_of_series_ids. eauto.
Qed.

Lemma series_tables_witness :
  let self := mk_library scenario_radarr scenario_sonarr
                (Some []) (Some themed_series) in
  ∃ doc tv_rows an_rows,
    get_media_summary self = (self, Return doc)
    ∧ (length tv_rows ≤ 50)%nat ∧ (length an_rows ≤ 50)%nat
    ∧ series_ids tv_rows ∩ series_ids an_rows = ∅.
Proof.
  intros self.
  pose proof (get_media_summary_cached self [] themed_series eq_refl eq_refl) as Hret.
  destruct (series_tables_top_50_by_rating _ _ _ Hret)
    as (ms & ss & tv & an & tv_rows & an_rows & _ & _ & _ & _ & _ & _
        & Htv & Han & Hdisj).
  eexists _, tv_rows, an_rows. split; [exact Hret|].
  destruct Htv as (_ & Htv & _). destruct Han as (_ & Han & _).
  split; [lia|]. split; [lia | exact Hdisj].
Defined.

(** ** The rating column *)

Lemma append_cons_ne_empty a c b : a +:+ String c b ≠ "".
Proof. by destruct a. Qed.

Lemma format_1f_not_dash r : format_1f r ≠ "-".
Proof.
  unfold format_1f.
  set (a := pretty (round_half_even (Qabs r * 10) / 10)).
  set (b := pretty (round_half_even (Qabs r * 10) `mod` 10)).
  destruct (Qle_bool 0 r).
  - destruct a as [|c a]; intros H; cbv [String.append] in H;
      fold String.append in H; [congruence|].
    injection H as _ H. by apply append_cons_ne_empty in H.
  - intros H. cbv [String.append] in H. fold String.append in H.
    injection H as H. by apply append_cons_ne_empty in H.
Qed.

(** X8. The rating column of every table shows "-" exactly when the
    rating is zero, which is also how a rating missing from the catalog is
    stored; any other rating is shown as a number. *)
Theorem rating_cell_dash_iff_zero (r : Q) :
  (rating_cell r = "-" ↔ (r == 0)%Q)
  ∧ (¬ (r == 0)%Q → rating_cell r = format_1f r)
  ∧ rating_cell (MovieItem.imdb_rating
                   (movie_of_raw (Raw.mk_movie None None None None None None
                                    (Some true) None))) = "-".
Proof.
  unfold rating_cell, truthy. split; [|split; [|done]].
  - destruct (Qeq_bool r 0) eqn:E; simpl.
    + apply Qeq_bool_iff in E. done.
    + split; [intros H; by apply format_1f_not_dash in H|].
      intros H. apply Qeq_bool_iff in H. congruence.
  - intros Hne. destruct (Qeq_bool r 0) eqn:E; simpl; [|done].
    by apply Qeq_bool_iff in E.
Qed.

Lemma rating_cell_witness :
  rating_cell (17 # 2) = "8.5" ∧ rating_cell (0 # 5) = "-".
Proof.
  destruct (rating_cell_dash_iff_zero (17 # 2)) as (_ & Hfmt & _).
  destruct (rating_cell_dash_iff_zero (0 # 5)) as (Hdash & _).
  split; [by rewrite Hfmt | by apply Hdash].
Defined.

(** ** More on theme search *)

Lemma _matches_theme_loop_app gl ol ks1 ks2 :
  _matches_theme_loop gl ol (ks1 ++ ks2)
  = _matches_theme_loop gl ol ks1 || _matches_theme_loop gl ol ks2.
Proof.
  induction ks1 as [|k ks1 IH]; [done|]. simpl.
  by destruct (list_in k gl || str_in k ol).
Qed.

Lemma _matches_theme_app genres overview ks1 ks2 :
  _matches_theme genres overview (lower <$> (ks1 ++ ks2))
  = _matches_theme genres overview (lower <$> ks1)
    || _matches_theme genres overview (lower <$> ks2).
Proof. unfold _matches_theme. by rewrite fmap_app, _matches_theme_loop_app. Qed.

Lemma sublist_filter_impl {A} (f h : A → bool) (l : list A) :
  (∀ x, f x = true → h x = true) →
  filter (λ x, f x = true) l `sublist_of` filter (λ x, h x = true) l.
Proof.
  intros Himp. induction l as [|x l IH]; [done|].
  rewrite !filter_cons.
  destruct (decide (f x = true)) as [Hf|Hf].
  - rewrite decide_True by auto. by apply sublist_skip.
  - destruct (decide (h x = true)); [by apply sublist_cons | done].
Qed.

Lemma filter_orb {A} (f g h : A → bool) (l : list A) :
  (∀ x, h x = f x || g x) →
  (∀ x, x ∈ filter (λ x, h x = true) l
        ↔ x ∈ filter (λ x, f x = true) l ∨ x ∈ filter (λ x, g x = true) l)
  ∧ filter (λ x, f x = true) l `sublist_of` filter (λ x, h x = true) l
  ∧ filter (λ x, g x = true) l `sublist_of` filter (λ x, h x = true) l.
Proof.
  intros Hh. split; [|split].
  - intros x. rewrite !list_elem_of_filter, Hh, orb_true_iff. tauto.
  - apply sublist_filter_impl. intros x Hx. by rewrite Hh, Hx.
  - apply sublist_filter_impl. intros x Hx. rewrite Hh, Hx. apply orb_true_r.
Qed.

(** X9. On a populated library, searching with two keyword lists put
    together returns, in each of the three lists, exactly the items found
    with the one list or with the other; more keywords never lose a
    result, and the results of either list keep their order among those of
    both. *)
Theorem search_by_theme_keywords_add_up (self : MediaLibrary)
    (ms : list MovieItem.t) (ss : list SeriesItem.t) (ks1 ks2 : list string) :
  _movies self = Some ms → _series self = Some ss →
  ∃ r1 r2 r,
    search_by_theme ks1 self = (self, Return r1)
    ∧ search_by_theme ks2 self = (self, Return r2)
    ∧ search_by_theme (ks1 ++ ks2) self = (self, Return r)
    ∧ results_join r1 r2 r.
Proof.
  intros Hm Hs. exists (search_of ks1 ms ss), (search_of ks2 ms ss),
    (search_of (ks1 ++ ks2) ms ss).
  do 3 (split; [by apply search_by_theme_cached|]).
  unfold results_join, search_of. simpl.
  split; [|split]; apply filter_orb; intros x;
    unfold movie_matches, series_matches; apply _matches_theme_app.
Qed.

Lemma search_by_theme_keywords_add_up_witness :
  let self := mk_library scenario_radarr scenario_sonarr
                (Some themed_movies) (Some themed_series) in
  ∃ r1 r2 r,
    search_by_theme ["friends"] self = (self, Return r1)
    ∧ search_by_theme ["anime"] self = (self, Return r2)
    ∧ search_by_theme ["friends"; "anime"] self = (self, Return r)
    ∧ r_movies r1 `sublist_of` r_movies r.
Proof.
  intros self.
  destruct (search_by_theme_keywords_add_up self themed_movies themed_series
              ["friends"] ["anime"] eq_refl eq_refl)
    as (r1 & r2 & r & H1 & H2 & H & (_ & Hsub & _) & _).
  exists r1, r2, r. done.
Defined.

Lemma str_in_empty s : str_in "" s = true.
Proof. by destruct s. Qed.

Lemma _matches_theme_empty_keyword genres overview keywords :
  "" ∈ keywords → _matches_theme genres overview (lower <$> keywords) = true.
Proof.
  intros Hin. apply _matches_theme_spec. exists "". split; [done|].
  right. apply str_in_spec, str_in_empty.
Qed.

Lemma filter_all {A} (f : A → bool) (l : list A) :
  (∀ x, f x = true) → filter (λ x, f x = true) l = l.
Proof.
  intros Hf. induction l as [|x l IH]; [done|].
  by rewrite filter_cons_True, IH.
Qed.

(** X10. A keyword that is the empty string matches every item, the empty
    string being a substring of every synopsis: on a populated library a
    search whose keywords include "" returns all movies, all TV shows and
    all anime. *)
Theorem search_by_theme_empty_keyword (self : MediaLibrary)
    (ms : list MovieItem.t) (ss : list SeriesItem.t) (keywords : list string) :
  _movies self = Some ms → _series self = Some ss → "" ∈ keywords →
  search_by_theme keywords self
  = (self, Return (mk_theme_result ms (tv_shows_of (anime_of ss) ss) (anime_of ss))).
Proof.
  intros Hm Hs Hin. rewrite (search_by_theme_cached _ _ _ _ Hm Hs).
  unfold search_of.
  rewrite !filter_all; [done|..];
    intros x; by apply _matches_theme_empty_keyword.
Qed.

Lemma search_by_theme_empty_keyword_witness :
  let self := mk_library scenario_radarr scenario_sonarr
                (Some themed_movies) (Some themed_series) in
  ∃ r, search_by_theme ["zzz"; ""] self = (self, Return r)
       ∧ r_movies r = themed_movies.
Proof.
  intros self. eexists. split.
  - apply (search_by_theme_empty_keyword self themed_movies themed_series);
      [reflexivity | reflexivity | set_solver].
  - reflexivity.
Defined.

(** X11. Whenever [search_by_theme] returns, its movies are a sublist of
    the cached movies, its shows a sublist of the [tv_shows] view and its
    anime a sublist of the [anime] view, so nothing is reported twice or
    out of order, and no identifier is in both the shows and the anime. *)
Theorem search_by_theme_results_within_views (self self' : MediaLibrary)
    (keywords : list string) (r : theme_result) :
  search_by_theme keywords self = (self', Return r) →
  ∃ ms ss,
    _movies self' = Some ms ∧ _series self' = Some ss
    ∧ r_movies r `sublist_of` ms
    ∧ r_shows r `sublist_of` tv_shows_of (anime_of ss) ss
    ∧ r_anime r `sublist_of` anime_of ss
    ∧ r_shows r `sublist_of` ss ∧ r_anime r `sublist_of` ss
    ∧ series_ids (r_shows r) ∩ series_ids (r_anime r) = ∅.
Proof.
  intros H. apply search_by_theme_inv in H as (ms & ss & Hm & Hs & ->).
  exists ms, ss. unfold search_of. simpl.
  do 2 (split; [done|]). do 3 (split; [apply sublist_filter|]).
  split; [etrans; apply sublist_filter|]. split; [etrans; apply sublist_filter|].
  apply set_eq. intros x. rewrite elem_of_intersection, elem_of_empty.
  split; [|done]. intros [Hx Hy].
  apply elem_of_series_ids in Hx as (s & Hs1 & <-).
  apply elem_of_series_ids in Hy as (a & Ha1 & Heq).
  apply list_elem_of_filter in Hs1 as [_ Hs1].
  apply list_elem_of_filter in Ha1 as [_ Ha1].
  apply list_elem_of_filter in Hs1 as [Hout _]. apply Hout.
  fold (series_ids (anime_of ss)). apply elem_of_series_ids. eauto.
Qed.

Lemma search_by_theme_results_within_views_witness :
  let self := mk_library scenario_radarr scenario_sonarr
                (Some themed_movies) (Some themed_series) in
  ∃ r, search_by_theme ["anime"; "drama"] self = (self, Return r)
       ∧ r_movies r `sublist_of` themed_movies
       ∧ series_ids (r_shows r) ∩ series_ids (r_anime r) = ∅.
Proof.
  intros self.
  pose proof (search_by_theme_cached ["anime"; "drama"] self themed_movies
                themed_series eq_refl eq_refl) as Hret.
  destruct (search_by_theme_results_within_views _ _ _ _ Hret)
    as (ms & ss & Hm & _ & Hsub & _ & _ & _ & _ & Hdisj).
  injection Hm as <-. eexists. split; [exact Hret|]. done.
Defined.

(** X12. What [get_movies_by_genre(genre)] returns is found by
    [search_by_theme([genre])]: when the library's movie cache holds what
    the catalog answers now, every movie of the genre call is among the
    movies of the theme search, in the same order. *)
Theorem movies_by_genre_within_theme_search (self : MediaLibrary)
    (data : list Raw.movie) (ss : list SeriesItem.t) (genre : string) :
  reply (radarr self) (sent (radarr self)) = inr data →
  _movies self = Some (movie_of_raw <$> filter has_file_flag data) →
  _series self = Some ss →
  ∃ by_genre r,
    (get_movies_by_genre genre (radarr self)).2 = Return by_genre
    ∧ search_by_theme [genre] self = (self, Return r)
    ∧ by_genre `sublist_of` r_movies r
    ∧ ∀ m, m ∈ by_genre → m ∈ r_movies r.
Proof.
  intros Hr Hm Hs. eexists _, _.
  unfold get_movies_by_genre. rewrite (get_movies_return _ _ Hr).
  split; [done|]. rewrite (search_by_theme_cached _ _ _ _ Hm Hs).
  split; [done|]. unfold search_of. simpl.
  assert (∀ m, any_genre_is (lower genre) (MovieItem.genres m) = true →
               movie_matches [genre] m = true) as Himp.
  { intros m Hg. apply any_genre_is_spec in Hg as (g & Hg & Heq).
    apply _matches_theme_spec. exists genre. split; [set_solver|].
    left. exists g. done. }
  split; [by apply sublist_filter_impl|].
  intros m. rewrite !list_elem_of_filter. intros [Hg Hin]. split; [by apply Himp | done].
Qed.

Lemma movies_by_genre_within_theme_search_witness :
  let self :=
    mk_library scenario_radarr scenario_sonarr
      (Some [MovieItem.mk 1 "Movie A" 2020 ["Action"] 0 "" (17 # 2) 0 true])
      (Some []) in
  ∃ by_genre r,
    (get_movies_by_genre "ACTION" (radarr self)).2 = Return by_genre
    ∧ search_by_theme ["ACTION"] self = (self, Return r)
    ∧ by_genre `sublist_of` r_movies r.
Proof.
  intros self.
  destruct (movies_by_genre_within_theme_search self [movie_a; no_file_movie] []
              "ACTION" eq_refl eq_refl eq_refl)
    as (by_genre & r & H1 & H2 & H3 & _).
  exists by_genre, r. done.
Defined.

(** ** More on the caches *)

Lemma populated_kept (self : MediaLibrary) ms ss :
  _movies self = Some ms → _series self = Some ss →
  kept_by_accessors (λ s, s = self).
Proof.
  intros Hm Hs. split; intros s ->.
  - by rewrite (movies_cached _ _ Hm).
  - by rewrite (series_cached _ _ Hs).
Qed.

Lemma populated_lifetime (self : MediaLibrary) ms ss calls :
  _movies self = Some ms → _series self = Some ss → lifetime calls self = self.
Proof.
  intros Hm Hs. by apply (lifetime_kept _ (populated_kept self ms ss Hm Hs)).
Qed.

(** X13. Once [get_media_summary()], [get_genre_stats()] or
    [search_by_theme(keywords)] has returned, the instance is settled:
    whatever calls follow, it stays as that call left it, no GET is sent,
    and the same call returns the same value again, whatever the catalogs
    would answer by then. *)
Theorem results_repeat_after_success (self : MediaLibrary) (calls : list call) :
  (∀ self' doc, get_media_summary self = (self', Return doc) →
     lifetime calls self' = self'
     ∧ get_media_summary (lifetime calls self') = (self', Return doc))
  ∧ (∀ self' stats, get_genre_stats self = (self', Return stats) →
     lifetime calls self' = self'
     ∧ get_genre_stats (lifetime calls self') = (self', Return stats))
  ∧ (∀ keywords self' r, search_by_theme keywords self = (self', Return r) →
     lifetime calls self' = self'
     ∧ search_by_theme keywords (lifetime calls self') = (self', Return r)).
Proof.
  split; [|split].
  - intros self' doc H.
    apply get_media_summary_inv in H as (ms & ss & Hm & Hs & ->).
    rewrite (populated_lifetime _ _ _ calls Hm Hs).
    split; [done|]. by apply get_media_summary_cached.
  - intros self' stats H.
    apply get_genre_stats_inv in H as (ms & ss & Hm & Hs & ->).
    rewrite (populated_lifetime _ _ _ calls Hm Hs).
    split; [done|]. by apply get_genre_stats_cached.
  - intros keywords self' r H.
    apply search_by_theme_inv in H as (ms & ss & Hm & Hs & ->).
    rewrite (populated_lifetime _ _ _ calls Hm Hs).
    split; [done|]. by apply search_by_theme_cached.
Qed.

Lemma results_repeat_witness :
  let self := new_library flaky_movie_service steady_series_service in
  let first := get_genre_stats (movies self).1 in
  get_genre_stats (lifetime [GetMediaSummary; Movies; Series] first.1) = first
  ∧ sent (radarr (lifetime [GetMediaSummary; Movies; Series] first.1)) = 2%nat.
Proof.
  intros self first.
  destruct (results_repeat_after_success (movies self).1
              [GetMediaSummary; Movies; Series]) as (_ & Hstats & _).
  destruct (Hstats first.1 [("Action", 1)] eq_refl) as [Hfix Hagain].
  split; [exact Hagain|]. by rewrite Hfix.
Defined.

Lemma movies_return self data :
  _movies self = None → reply (radarr self) (sent (radarr self)) = inr data →
  movies self
  = (mk_library (mk_client (reply (radarr self)) (S (sent (radarr self))))
       (sonarr self) (Some (get_movies_loop data [])) (_series self),
     Return (get_movies_loop data [])).
Proof.
  intros Hc Hr. unfold movies, get_movies, _get. by rewrite Hc, Hr.
Qed.

(** X14. A failure is not remembered: after an access whose GET failed,
    the next access sends a new GET, and when that one is answered the
    access returns the list and populates the cache, two GETs having been
    sent in all. This holds for [movies] and for [series]. *)
Theorem access_retries_after_failure (self : MediaLibrary) (e : httpx_error) :
  (∀ data, _movies self = None →
     reply (radarr self) (sent (radarr self)) = inl e →
     reply (radarr self) (S (sent (radarr self))) = inr data →
     let result := movie_of_raw <$> filter has_file_flag data in
     (movies (movies self).1).2 = Return result
     ∧ _movies (movies (movies self).1).1 = Some result
     ∧ sent (radarr (movies (movies self).1).1) = S (S (sent (radarr self))))
  ∧ (∀ data, _series self = None →
     reply (sonarr self) (sent (sonarr self)) = inl e →
     reply (sonarr self) (S (sent (sonarr self))) = inr data →
     let result := series_of_raw <$> filter (λ r, raw_episode_count r ≠ 0) data in
     (series (series self).1).2 = Return result
     ∧ _series (series (series self).1).1 = Some result
     ∧ sent (sonarr (series (series self).1).1) = S (S (sent (sonarr self)))).
Proof.
  split.
  - intros data Hc Hfail Hok result.
    rewrite (movies_raise _ _ Hc Hfail). simpl.
    rewrite movies_return with (data := data); [|done|done]. simpl.
    unfold result. by rewrite get_movies_loop_app.
  - intros data Hc Hfail Hok result.
    rewrite (series_raise _ _ Hc Hfail). simpl.
    rewrite series_return with (data := data); [|done|done]. simpl.
    unfold result. by rewrite get_series_loop_app.
Qed.

Lemma access_retries_witness :
  let self := new_library flaky_movie_service steady_series_service in
  (movies self).2 = Raise (HTTPStatusError 503)
  ∧ (movies (movies self).1).2
    = Return [MovieItem.mk 1 "Movie A" 2020 ["Action"] 0 "" (17 # 2) 0 true]
  ∧ sent (radarr (movies (movies self).1).1) = 2%nat.
Proof.
  intros self.
  destruct (access_retries_after_failure self (HTTPStatusError 503)) as [Hm _].
  destruct (Hm [movie_a; no_file_movie] eq_refl eq_refl eq_refl) as (Hret & _ & Hsent).
  split; [reflexivity|]. split; [exact Hret | exact Hsent].
Defined.

(** X15. [get_genre_stats()] and [search_by_theme(keywords)] ask for the
    movies first: when that fetch fails they raise its exception and the
    series catalog is not contacted; when the movies are obtained and the
    series fetch fails, they raise that exception, return nothing, and the
    movie cache stays populated. *)
Theorem stats_and_search_fail_with_fetch (self : MediaLibrary) (e : httpx_error)
    (keywords : list string) :
  (_movies self = None → reply (radarr self) (sent (radarr self)) = inl e →
     get_genre_stats self = ((movies self).1, Raise e)
     ∧ search_by_theme keywords self = ((movies self).1, Raise e)
     ∧ sonarr (movies self).1 = sonarr self
     ∧ _series (movies self).1 = _series self)
  ∧ (_series self = None → reply (sonarr self) (sent (sonarr self)) = inl e →
     ∀ ms, (movies self).2 = Return ms →
       get_genre_stats self = ((series (movies self).1).1, Raise e)
       ∧ search_by_theme keywords self = ((series (movies self).1).1, Raise e)
       ∧ _movies (series (movies self).1).1 = Some ms
       ∧ _series (series (movies self).1).1 = None).
Proof.
  split.
  - intros Hc Hr. pose proof (movies_raise _ _ Hc Hr) as Hraise.
    unfold get_genre_stats, search_by_theme, bind. by rewrite Hraise.
  - intros Hc Hr ms Hms.
    destruct (movies self) as [s1 [ms'|e']] eqn:E1; simpl in Hms; [|done].
    injection Hms as ->. simpl.
    apply movies_inv in E1 as E1'. destruct E1' as [Hm1 Hs1].
    destruct (movies_frame self) as (Hson & _ & _). rewrite E1 in Hson. simpl in Hson.
    assert (series s1
            = (mk_library (radarr s1)
                 (mk_client (reply (sonarr s1)) (S (sent (sonarr s1))))
                 (_movies s1) None, Raise e)) as Hs1raise.
    { apply series_raise; [congruence | by rewrite Hson]. }
    rewrite Hs1raise. simpl.
    unfold get_genre_stats, search_by_theme, tv_shows, anime, bind.
    by rewrite E1, Hs1raise.
Qed.

Lemma stats_and_search_fail_witness :
  let down := new_library failing_movie_service steady_series_service in
  let half := (movies (new_library flaky_movie_service failing_series_service)).1 in
  (get_genre_stats down).2 = Raise (RequestError "connection refused")
  ∧ sent (sonarr (search_by_theme ["x"] down).1) = 0%nat
  ∧ (search_by_theme ["x"] half).2 = Raise (HTTPStatusError 500).
Proof.
  intros down half.
  destruct (stats_and_search_fail_with_fetch down
              (RequestError "connection refused") ["x"]) as [Hmovies _].
  destruct (Hmovies eq_refl eq_refl) as (Hstats & Hsearch & Hson & _).
  destruct (stats_and_search_fail_with_fetch half (HTTPStatusError 500) ["x"])
    as [_ Hseries].
  destruct (Hseries eq_refl eq_refl _ eq_refl) as (_ & Hsearch2 & _).
  split; [by rewrite Hstats|]. split; [|by rewrite Hsearch2].
  rewrite Hsearch. change (sent (sonarr (movies down).1) = 0%nat).
  by rewrite Hson.
Defined.

(** * Properties of the configuration loader *)

Lemma default_section_lookup (d : gmap string (gmap string string)) section key :
  default ∅ (d !! section) !! key = section_get d section key.
Proof. unfold section_get. by destruct (d !! section). Qed.

Lemma setdefault_set_get section key value d section' key' :
  section_get (setdefault_set section key value d) section' key'
  = if bool_decide (section = section' ∧ key = key') then Some value
    else section_get d section' key'.
Proof.
  unfold section_get, setdefault_set.
  destruct (decide (section = section')) as [<-|Hs].
  - rewrite lookup_insert_eq.
    destruct (decide (key = key')) as [<-|Hk].
    + rewrite lookup_insert_eq. by rewrite bool_decide_eq_true_2.
    + rewrite lookup_insert_ne by done.
      rewrite bool_decide_eq_false_2 by tauto.
      by destruct (d !! section).
  - rewrite lookup_insert_ne by done. by rewrite bool_decide_eq_false_2 by tauto.
Qed.

Lemma env_override_get_ne env var section key d section' key' :
  section ≠ section' ∨ key ≠ key' →
  section_get (env_override env var section key d) section' key'
  = section_get d section' key'.
Proof.
  intros Hne. unfold env_override.
  destruct (env !! var) as [v|]; [|done]. case_bool_decide; [done|].
  rewrite setdefault_set_get. by rewrite bool_decide_eq_false_2 by tauto.
Qed.

Lemma env_override_get_eq env var section key d :
  section_get (env_override env var section key d) section key
  = match env !! var with
    | Some value =>
        if bool_decide (value = "") then section_get d section key else Some value
    | None => section_get d section key
    end.
Proof.
  unfold env_override.
  destruct (env !! var) as [v|]; [|done]. case_bool_decide; [done|].
  rewrite setdefault_set_get. by rewrite bool_decide_eq_true_2.
Qed.

Lemma setting_eq env file var section key dflt :
  default dflt
    (match env !! var with
     | Some value =>
         if bool_decide (value = "")
         then section_get (sections (default (mk_config_data ∅ None) file)) section key
         else Some value
     | None => section_get (sections (default (mk_config_data ∅ None) file)) section key
     end)
  = setting env file var section key dflt.
Proof.
  unfold setting, in_file, section_get.
  destruct file as [d|]; simpl.
  - destruct (env !! var) as [v|]; [|done]. by case_bool_decide.
  - rewrite lookup_empty. destruct (env !! var) as [v|]; [|done]. by case_bool_decide.
Qed.

Ltac settle_setting :=
  rewrite default_section_lookup;
  repeat first
    [ rewrite env_override_get_eq
    | rewrite env_override_get_ne by (vm_compute; intuition discriminate) ];
  apply setting_eq.

(** X16. Every setting [load_config] returns is the value of its
    environment variable when that is set and not empty, else the value
    in the file's section, else the default of the field; overriding one
    key of a section leaves the other keys of the section as the file has
    them. The themes are those of the file, with duration 180 and no
    keywords where the file gives none; without file or [themes] key there
    are none. *)
Theorem load_config_precedence (file : option config_data)
    (env : gmap string string) :
  let c := load_config file env in
  OllamaConfig.url (AgentConfig.ollama c)
  = setting env file "OLLAMA_URL" "ollama" "url" "http://localhost:11434"
  ∧ OllamaConfig.model (AgentConfig.ollama c)
    = setting env file "OLLAMA_MODEL" "ollama" "model" "llama3:8b"
  ∧ ErsatzTVConfig.url (AgentConfig.ersatztv c)
    = setting env file "ERSATZTV_URL" "ersatztv" "url" "http://localhost:8409"
  ∧ RadarrConfig.url (AgentConfig.radarr c)
    = setting env file "RADARR_URL" "radarr" "url" "http://localhost:7878"
  ∧ RadarrConfig.api_key (AgentConfig.radarr c)
    = setting env file "RADARR_API_KEY" "radarr" "api_key" ""
  ∧ SonarrConfig.url (AgentConfig.sonarr c)
    = setting env file "SONARR_URL" "sonarr" "url" "http://localhost:8989"
  ∧ SonarrConfig.api_key (AgentConfig.sonarr c)
    = setting env file "SONARR_API_KEY" "sonarr" "api_key" ""
  ∧ AgentConfig.themes c
    = build_theme <$> default [] (file ≫= raw_themes).
Proof.
  unfold load_config, build_agent_config, build_ollama, build_ersatztv,
    build_radarr, build_sonarr.
  cbv zeta. cbn [AgentConfig.ollama AgentConfig.ersatztv AgentConfig.radarr
                 AgentConfig.sonarr AgentConfig.themes OllamaConfig.url
                 OllamaConfig.model ErsatzTVConfig.url RadarrConfig.url
                 RadarrConfig.api_key SonarrConfig.url SonarrConfig.api_key
                 sections raw_themes].
  repeat split; try settle_setting.
  by destruct file.
Qed.

(** X17. The loader reads only its seven variables, and reads an empty
    variable as an unset one: two environments that agree on the seven,
    up to empty values, load the same configuration from the same file. *)
Theorem load_config_reads_seven_variables (file : option config_data)
    (env env' : gmap string string) :
  (∀ var, var ∈ ["OLLAMA_URL"; "OLLAMA_MODEL"; "ERSATZTV_URL"; "RADARR_URL";
                 "RADARR_API_KEY"; "SONARR_URL"; "SONARR_API_KEY"] →
          default "" (env !! var) = default "" (env' !! var)) →
  load_config file env = load_config file env'.
Proof.
  intros Hagree.
  assert (∀ var section key d,
    var ∈ ["OLLAMA_URL"; "OLLAMA_MODEL"; "ERSATZTV_URL"; "RADARR_URL";
           "RADARR_API_KEY"; "SONARR_URL"; "SONARR_API_KEY"] →
    env_override env var section key d = env_override env' var section key d) as Hov.
  { intros var section key d Hin. specialize (Hagree var Hin).
    unfold env_override.
    destruct (env !! var) as [v|], (env' !! var) as [v'|]; simpl in Hagree;
      subst; try done; repeat case_bool_decide; congruence. }
  unfold load_config. cbv zeta.
  rewrite !Hov by set_solver. done.
Qed.

Lemma load_config_precedence_witness :
  let env : gmap string string :=
    {[ "RADARR_API_KEY" := "env-key"; "SONARR_URL" := ""; "HOME" := "/root" ]} in
  let c := load_config (Some radarr_only_file) env in
  RadarrConfig.url (AgentConfig.radarr c) = "http://radarr:7878"
  ∧ RadarrConfig.api_key (AgentConfig.radarr c) = "env-key"
  ∧ SonarrConfig.url (AgentConfig.sonarr c) = "http://localhost:8989"
  ∧ AgentConfig.themes c = [ThemeConfig.mk "Noir" "Crime at night" 180 ["noir"]].
Proof.
  intros env c.
  destruct (load_config_precedence (Some radarr_only_file) env)
    as (_ & _ & _ & Hurl & Hkey & Hsurl & _ & Hthemes).
  unfold c.
  split; [by rewrite Hurl|]. split; [by rewrite Hkey|]. split; [by rewrite Hsurl|].
  by rewrite Hthemes.
Defined.

Lemma load_config_reads_seven_variables_witness :
  load_config (Some radarr_only_file)
    {[ "RADARR_API_KEY" := "env-key"; "SONARR_URL" := ""; "HOME" := "/root" ]}
  = load_config (Some radarr_only_file) {[ "RADARR_API_KEY" := "env-key" ]}.
Proof.
  apply load_config_reads_seven_variables.
  intros var Hin. repeat (apply elem_of_cons in Hin as [->|Hin]; [done|]).
  by apply elem_of_nil in Hin.
Defined.
